(** * Wolf and sheep chase: a shallow embedding of [main.py]

    The simulation keeps one wolf and an ordered list of sheep on the plane.
    Each round every live sheep takes a random axis-parallel step, the wolf
    selects the closest live sheep and either catches it (when it is within
    the wolf's step distance) or advances towards it.

    Numbers.  The program computes with Python floats.  Two models of them
    are used.

    - The real-number model (the top-level definitions): a float is a real
      number ([R]) and the initial [min_distance = float('inf')] of
      [closest_sheep] is [None] in an [option R].  Rounding, overflow,
      infinities and NaN do not exist in it, so it is used only for what
      does not depend on them: the theorems stated in it are about rounds
      and runs that complete, and speak of counts, flags, indexes, file
      contents and the outcome of the comparisons the code itself makes.
      The lemmas by which every round of this model completes
      ([closest_sheep_None], [round_body_total], [main_total]) are facts of
      the model, not of the program.

    - The binary64 model ([Module F64]): a float is an IEEE 754 binary64
      number ([PrimFloat]).  It is used to evaluate the code at concrete
      inputs where overflow decides the outcome.

    Python integers ([num_alive_sheep], [round_num], [max_rounds],
    [num_sheep]) are [Z].

    Objects.  Sheep objects live in [sheep_list] and are mutated through
    references; a reference is modelled by the index of the object in the
    list, and a mutation through it by [alter] at that index.

    Randomness.  [random.choice] reads the next element of a stream of
    directions; the [random.uniform] draws of the initial positions are a
    function from the sheep's index to its coordinates. *)

From Stdlib Require Import Floats.
From Stdlib Require Import Reals Lra Lia ZArith.
From stdpp Require Import relations list strings pretty.

(** ** Numbers *)

Definition Rltb (a b : R) : bool := if Rlt_dec a b then true else false.
Definition Rleb (a b : R) : bool := if Rle_dec a b then true else false.

(** [d < m] where [m] is a float that is either [inf] ([None]) or finite. *)
Definition lt_min (d : R) (m : option R) : bool :=
  match m with
  | None => true
  | Some v => Rltb d v
  end.

(** [math.atan2 y x], following the C library conventions for the quadrants
    and for the zero vector ([atan2 0 0 = 0]). *)
Definition atan2 (y x : R) : R :=
  if Rlt_dec 0 x then atan (y / x)
  else if Rlt_dec x 0 then
    (if Rle_dec 0 y then atan (y / x) + PI else atan (y / x) - PI)%R
  else if Rlt_dec 0 y then (PI / 2)%R
  else if Rlt_dec y 0 then (- PI / 2)%R
  else 0%R.

Definition euclidean_distance (x1 y1 x2 y2 : R) : R :=
  sqrt ((x1 - x2) ^ 2 + (y1 - y2) ^ 2).

(** ** Random source *)

Inductive Direction := north | south | east | west.

Definition RNG := nat -> Direction.

Definition random_choice (g : RNG) : Direction * RNG :=
  (g 0%nat, fun n => g (S n)).

(** ** Entities *)

Module Wolf.
Record t := Build { x : R; y : R }.

Definition move_towards (self : t) (target_x target_y distance : R) : t :=
  let angle := atan2 (target_y - y self) (target_x - x self) in
  {| x := x self + distance * cos angle;
     y := y self + distance * sin angle |}.
End Wolf.

Module Sheep.
Record t := Build { x : R; y : R; is_alive : bool }.

Definition init (x0 y0 : R) : t := {| x := x0; y := y0; is_alive := true |}.

Definition move_randomly (self : t) (distance : R) (g : RNG)
  : Direction * t * RNG :=
  let (direction, g') := random_choice g in
  let self' :=
    match direction with
    | north => {| x := x self; y := y self + distance; is_alive := is_alive self |}
    | south => {| x := x self; y := y self - distance; is_alive := is_alive self |}
    | east => {| x := x self + distance; y := y self; is_alive := is_alive self |}
    | west => {| x := x self - distance; y := y self; is_alive := is_alive self |}
    end in
  (direction, self', g').

(** [self.is_alive = False] *)
Definition kill (self : t) : t :=
  {| x := x self; y := y self; is_alive := false |}.
End Sheep.

(** ** Nearest live sheep *)

(** The [for] loop of [closest_sheep]; [i] is the index of the head of [l]
    in the whole list, [closest] the reference held so far (with the
    object's fields) and [min_distance] the best distance so far. *)
Fixpoint closest_scan (wolf : Wolf.t) (l : list Sheep.t) (i : nat)
    (min_distance : option R) (closest : option (nat * Sheep.t))
    : option (nat * Sheep.t) :=
  match l with
  | [] => closest
  | sheep :: rest =>
      let distance :=
        euclidean_distance (Wolf.x wolf) (Wolf.y wolf) (Sheep.x sheep) (Sheep.y sheep) in
      if lt_min distance min_distance && Sheep.is_alive sheep
      then closest_scan wolf rest (S i) (Some distance) (Some (i, sheep))
      else closest_scan wolf rest (S i) min_distance closest
  end.

Definition closest_sheep (wolf : Wolf.t) (sheep_list : list Sheep.t)
    : option (nat * Sheep.t) :=
  closest_scan wolf sheep_list 0 None None.

(** ** One round *)

Inductive Exception :=
| AttributeError. (* attribute access on [None] *)

Inductive result (A : Type) :=
| Ok (a : A)
| Raise (e : Exception).
Arguments Ok {A} a.
Arguments Raise {A} e.

Record Config := {
  init_pos_limit : R;
  move_dist_sheep : R;
  move_dist_wolf : R;
  max_rounds : Z;
  num_sheep : Z
}.

Record State := {
  wolf : Wolf.t;
  sheep_list : list Sheep.t;
  num_alive_sheep : Z
}.

(** What the round reports about the wolf: "Wolf caught a sheep i" or
    "Wolf chasing sheep i". *)
Inductive Outcome :=
| caught (i : nat)
| chasing (i : nat).

(** "Move all sheep randomly": the first inner loop of a round. *)
Fixpoint move_all_sheep (distance : R) (l : list Sheep.t) (g : RNG)
    : list Sheep.t * RNG :=
  match l with
  | [] => ([], g)
  | sheep :: rest =>
      if Sheep.is_alive sheep then
        let '(_, sheep', g') := Sheep.move_randomly sheep distance g in
        let (rest', g'') := move_all_sheep distance rest g' in
        (sheep' :: rest', g'')
      else
        let (rest', g') := move_all_sheep distance rest g in
        (sheep :: rest', g')
  end.

(** The body of the round loop after the extinction test.  [closest.x] on
    a [None] selection raises [AttributeError]; a sheep object is truthy,
    so [closest and distance <= move_dist_wolf] is the comparison alone. *)
Definition round_body (cfg : Config) (st : State) (g : RNG)
    : result (State * Outcome * RNG) :=
  let (sheep1, g1) := move_all_sheep (move_dist_sheep cfg) (sheep_list st) g in
  match closest_sheep (wolf st) sheep1 with
  | None => Raise AttributeError
  | Some (i, closest) =>
      let distance :=
        euclidean_distance (Wolf.x (wolf st)) (Wolf.y (wolf st))
                           (Sheep.x closest) (Sheep.y closest) in
      if Rleb distance (move_dist_wolf cfg) then
        Ok ({| wolf := {| Wolf.x := Sheep.x closest; Wolf.y := Sheep.y closest |};
               sheep_list := alter Sheep.kill i sheep1;
               num_alive_sheep := num_alive_sheep st - 1 |},
            caught i, g1)
      else
        Ok ({| wolf := Wolf.move_towards (wolf st) (Sheep.x closest) (Sheep.y closest)
                                         (move_dist_wolf cfg);
               sheep_list := sheep1;
               num_alive_sheep := num_alive_sheep st |},
            chasing i, g1)
  end.

(** ** The driver *)

(** How the [for] loop over the rounds ended. *)
Inductive Exit :=
| all_eaten       (* [break]: "All sheep have been eaten" *)
| range_exhausted.

(** The run of the loop: the rows appended to alive.csv, one per completed
    round, the final state and the way the loop ended. *)
Record Run := {
  rows : list (Z * Z);
  final : State;
  exit : Exit
}.

(** [range(a, b)] *)
Definition range (a b : Z) : list Z :=
  map (fun k => (a + Z.of_nat k)%Z) (seq 0 (Z.to_nat (b - a))).

Fixpoint rounds_loop (cfg : Config) (rounds : list Z) (st : State) (g : RNG)
    : result Run :=
  match rounds with
  | [] => Ok {| rows := []; final := st; exit := range_exhausted |}
  | round_num :: rest =>
      if (num_alive_sheep st =? 0)%Z then
        Ok {| rows := []; final := st; exit := all_eaten |}
      else
        match round_body cfg st g with
        | Raise e => Raise e
        | Ok (st', _, g') =>
            match rounds_loop cfg rest st' g' with
            | Raise e => Raise e
            | Ok r =>
                Ok {| rows := (round_num, num_alive_sheep st') :: rows r;
                      final := final r;
                      exit := exit r |}
            end
        end
  end.

(** The state built before the loop: [num_sheep] fresh sheep at the drawn
    positions and the wolf at the origin. *)
Definition initial_state (cfg : Config) (uniform : nat -> R * R) : State :=
  {| wolf := {| Wolf.x := 0; Wolf.y := 0 |};
     sheep_list :=
       map (fun k => Sheep.init (fst (uniform k)) (snd (uniform k)))
           (seq 0 (Z.to_nat (num_sheep cfg)));
     num_alive_sheep := num_sheep cfg |}.

Definition main (cfg : Config) (uniform : nat -> R * R) (g : RNG) : result Run :=
  rounds_loop cfg (range 1 (max_rounds cfg + 1)) (initial_state cfg uniform) g.

(** Number of sheep whose liveness flag is set. *)
Definition count_alive (l : list Sheep.t) : Z :=
  Z.of_nat (length (filter (fun s => Sheep.is_alive s = true) l)).

(** Distance from the wolf to a sheep, as both the selector and the round
    compute it. *)
Definition distance_to (w : Wolf.t) (s : Sheep.t) : R :=
  euclidean_distance (Wolf.x w) (Wolf.y w) (Sheep.x s) (Sheep.y s).

(** What the scan of [closest_sheep] knows after the prefix [pre]. *)
Definition scan_inv (w : Wolf.t) (pre : list Sheep.t)
    (min_distance : option R) (closest : option (nat * Sheep.t)) : Prop :=
  match closest with
  | None =>
      min_distance = None /\ forall s, s ∈ pre -> Sheep.is_alive s = false
  | Some (k, c) =>
      min_distance = Some (distance_to w c) /\
      pre !! k = Some c /\ Sheep.is_alive c = true /\
      forall j s, pre !! j = Some s -> Sheep.is_alive s = true ->
        (distance_to w c <= distance_to w s)%R /\
        (distance_to w s = distance_to w c -> (k <= j)%nat)
  end.

(** ** Reachable states *)

(** The driver's counter agrees with the liveness flags. *)
Definition consistent (st : State) : Prop :=
  num_alive_sheep st = count_alive (sheep_list st).

(** One iteration of the round loop that gets past the extinction test and
    completes, for some continuation of the random stream. *)
Definition step (cfg : Config) (st st' : State) : Prop :=
  num_alive_sheep st <> 0%Z /\
  exists g out g', round_body cfg st g = Ok (st', out, g').

(** The states the loop of [main] can be in at the head of an iteration. *)
Definition reachable (cfg : Config) (uniform : nat -> R * R) (st : State) : Prop :=
  rtc (step cfg) (initial_state cfg uniform) st.

(** What the sheep's loop may change in one sheep when the step is [d]. *)
Definition moved (d : R) (s s' : Sheep.t) : Prop :=
  Sheep.is_alive s' = Sheep.is_alive s /\
  (Sheep.is_alive s = false -> s' = s) /\
  (d = 0%R -> s' = s).

(** What any number of rounds may change in one sheep when the sheep's
    step is [d]: the flag is never raised again, and with a zero step the
    position stays. *)
Definition evolved (d : R) (s s' : Sheep.t) : Prop :=
  (Sheep.is_alive s' = true -> Sheep.is_alive s = true) /\
  (d = 0%R -> Sheep.x s' = Sheep.x s /\ Sheep.y s' = Sheep.y s).

(** The population after the sheep's loop of a round. *)
Definition sheep_after_moves (cfg : Config) (st : State) (g : RNG) : list Sheep.t :=
  (move_all_sheep (move_dist_sheep cfg) (sheep_list st) g).1.

(** The state a round leaves when the wolf catches sheep [i]. *)
Definition after_catch (st : State) (sheep1 : list Sheep.t) (i : nat)
    (closest : Sheep.t) : State :=
  {| wolf := {| Wolf.x := Sheep.x closest; Wolf.y := Sheep.y closest |};
     sheep_list := alter Sheep.kill i sheep1;
     num_alive_sheep := num_alive_sheep st - 1 |}.

(** The state a round leaves when the wolf chases a sheep. *)
Definition after_chase (cfg : Config) (st : State) (sheep1 : list Sheep.t)
    (closest : Sheep.t) : State :=
  {| wolf := Wolf.move_towards (wolf st) (Sheep.x closest) (Sheep.y closest)
                               (move_dist_wolf cfg);
     sheep_list := sheep1;
     num_alive_sheep := num_alive_sheep st |}.

(** How many times the loop body was entered: once per completed round,
    and once more when the extinction test ended the loop. *)
Definition iterations (r : Run) : nat :=
  (length (rows r) + match exit r with all_eaten => 1 | range_exhausted => 0 end)%nat.

(** ** Sample runs *)

Definition always (d : Direction) : RNG := fun _ => d.

(** One sheep, one round, sheep that stand still, wolf step 1. *)
Definition cfg_one : Config :=
  {| init_pos_limit := 10; move_dist_sheep := 0; move_dist_wolf := 1;
     max_rounds := 1; num_sheep := 1 |}.

(** The sheep is drawn on the wolf's position. *)
Definition at_origin : nat -> R * R := fun _ => (0%R, 0%R).

(** The sheep is drawn five units east of the wolf. *)
Definition five_east : nat -> R * R := fun _ => (5%R, 0%R).

(** A live sheep drawn at [(x0, y0)] after its step of length 0 north. *)
Definition stood_north (x0 y0 : R) : Sheep.t :=
  {| Sheep.x := x0; Sheep.y := y0 + 0; Sheep.is_alive := true |}.

(** A live sheep drawn at [(x0, y0)] after its step of length 1/2 north. *)
Definition half_north (x0 y0 : R) : Sheep.t :=
  {| Sheep.x := x0; Sheep.y := y0 + 1 / 2; Sheep.is_alive := true |}.

(** An eaten sheep away from the wolf and a live sheep on the wolf's
    position. *)
Definition st_carcass : State :=
  {| wolf := {| Wolf.x := 0; Wolf.y := 0 |};
     sheep_list := [Sheep.kill (Sheep.init 9 9); Sheep.init 0 0];
     num_alive_sheep := 1 |}.

(** ** Output files *)

(** The names of the three files [main] removes when it starts. *)
Inductive Path := ALIVE_DIR | POS_DIR | CHASE_DIR.

(** One entry of pos.json. *)
Record Snapshot := {
  round_no : Z;
  wolf_pos : R * R;
  sheep_pos : list (option (R * R))
}.

(** The two data files with their parsed contents, [None] when the file
    does not exist: alive.csv as its rows of fields, pos.json as its list
    of entries.  The log file chase.log is not part of the model. *)
Record Files := {
  alive_csv : option (list (list string));
  pos_json : option (list Snapshot)
}.

(** Rounding of a real to the nearest integer, ties to the even one. *)
Definition round_half_even (v : R) : Z :=
  let f := Zfloor v in
  if Rlt_dec (v - IZR f) (1 / 2) then f
  else if Rlt_dec (1 / 2) (v - IZR f) then (f + 1)%Z
  else if Z.even f then f else (f + 1)%Z.

(** [round(v, 3)] *)
Definition round3 (v : R) : R := (IZR (round_half_even (v * 1000)) / 1000)%R.

(** [os.remove] with its [OSError] swallowed: removing a file that does
    not exist changes nothing. *)
Definition delete_file (path : Path) (fs : Files) : Files :=
  match path with
  | ALIVE_DIR => {| alive_csv := None; pos_json := pos_json fs |}
  | POS_DIR => {| alive_csv := alive_csv fs; pos_json := None |}
  | CHASE_DIR => fs
  end.

Definition save_to_json (round_num : Z) (w : Wolf.t) (l : list Sheep.t)
    (fs : Files) : Files :=
  let existing_data :=
    match pos_json fs with
    | Some data => data
    | None => []          (* FileNotFoundError *)
    end in
  let new_data :=
    {| round_no := round_num;
       wolf_pos := (round3 (Wolf.x w), round3 (Wolf.y w));
       sheep_pos :=
         map (fun s => if Sheep.is_alive s
                       then Some (round3 (Sheep.x s), round3 (Sheep.y s))
                       else None) l |} in
  {| alive_csv := alive_csv fs; pos_json := Some (existing_data ++ [new_data]) |}.

(** The csv writer prints the two integers in decimal; rows read back from
    the file are rows of strings and are written back as they are. *)
Definition save_to_csv (round_num num_alive : Z) (fs : Files) : Files :=
  let existing_data :=
    match alive_csv fs with
    | Some data => data
    | None => []          (* FileNotFoundError *)
    end in
  let new_data := [pretty round_num; pretty num_alive] in
  {| alive_csv := Some (existing_data ++ [new_data]); pos_json := pos_json fs |}.

(** The round loop with the two files it writes after each round.  The
    files are returned also when the loop raises. *)
Fixpoint rounds_loop_io (cfg : Config) (rounds : list Z) (st : State) (g : RNG)
    (fs : Files) : result Run * Files :=
  match rounds with
  | [] => (Ok {| rows := []; final := st; exit := range_exhausted |}, fs)
  | round_num :: rest =>
      if (num_alive_sheep st =? 0)%Z then
        (Ok {| rows := []; final := st; exit := all_eaten |}, fs)
      else
        match round_body cfg st g with
        | Raise e => (Raise e, fs)
        | Ok (st', _, g') =>
            let fs1 := save_to_json round_num (wolf st') (sheep_list st') fs in
            let fs2 := save_to_csv round_num (num_alive_sheep st') fs1 in
            match rounds_loop_io cfg rest st' g' fs2 with
            | (Raise e, fs') => (Raise e, fs')
            | (Ok r, fs') =>
                (Ok {| rows := (round_num, num_alive_sheep st') :: rows r;
                       final := final r;
                       exit := exit r |}, fs')
            end
        end
  end.

(** ** Command line and configuration *)

Module Args.
Record t := Build {
  config : option string;
  help : bool;
  log : option string;
  rounds : option Z;
  sheep : option Z;
  wait : bool
}.
End Args.

(** What the configuration files hold: for a path, the three numbers read
    from it ([InitPosLimit] and [MoveDist] of section [Sheep], [MoveDist]
    of section [Wolf]), or [None] when no file has that path.  Files that
    exist but do not parse are outside the model. *)
Definition ConfigFiles := string -> option (R * R * R).

(** The part of [main] between the parsing of the arguments and the
    creation of the animals; [None] is [sys.exit()].  A string and an
    integer are truthy when they are not empty and not 0.  The three
    distances are compared with 0 exactly as the code compares them, and
    nothing else is done with them here. *)
Definition configure (args : Args.t) (files : ConfigFiles) : option Config :=
  if Args.help args then None else
  let dists :=
    match Args.config args with
    | Some (String c path) =>
        match files (String c path) with
        | None => None
        | Some (init_pos_limit, move_dist_sheep, move_dist_wolf) =>
            if Rltb init_pos_limit 0 then None
            else if Rltb move_dist_sheep 0 then None
            else if Rleb move_dist_wolf 0 then None
            else Some (init_pos_limit, move_dist_sheep, move_dist_wolf)
        end
    | _ => Some (10, 1 / 2, 1)%R
    end in
  match dists with
  | None => None
  | Some (init_pos_limit, move_dist_sheep, move_dist_wolf) =>
      let max_rounds :=
        match Args.rounds args with
        | Some 0%Z | None => Some 50%Z
        | Some n => if (n <=? 0)%Z then None else Some n
        end in
      match max_rounds with
      | None => None
      | Some max_rounds =>
          let num_sheep :=
            match Args.sheep args with
            | Some 0%Z | None => Some 15%Z
            | Some n => if (n <=? 0)%Z then None else Some n
            end in
          match num_sheep with
          | None => None
          | Some num_sheep =>
              Some {| init_pos_limit := init_pos_limit;
                      move_dist_sheep := move_dist_sheep;
                      move_dist_wolf := move_dist_wolf;
                      max_rounds := max_rounds;
                      num_sheep := num_sheep |}
          end
      end
  end.

(** How a run of the program ends. *)
Inductive Ending :=
| completed (r : Run)
| system_exit
| uncaught (e : Exception).

(** [main] as a whole: remove the old files, read the configuration, run
    the rounds.  The optional pause ([input()]), logging and the errors of
    reading and writing files are not modelled: what is stated of
    [main_program] is stated of runs that complete. *)
Definition main_program (args : Args.t) (files : ConfigFiles)
    (uniform : nat -> R * R) (g : RNG) (fs : Files) : Ending * Files :=
  let fs0 := delete_file CHASE_DIR (delete_file POS_DIR (delete_file ALIVE_DIR fs)) in
  match configure args files with
  | None => (system_exit, fs0)
  | Some cfg =>
      match rounds_loop_io cfg (range 1 (max_rounds cfg + 1))
              (initial_state cfg uniform) g fs0 with
      | (Ok r, fs') => (completed r, fs')
      | (Raise e, fs') => (uncaught e, fs')
      end
  end.

(** ** Relations used for the further properties *)

(** Two sheep and a single round. *)
Definition cfg_two : Config :=
  {| init_pos_limit := 10; move_dist_sheep := 1 / 2; move_dist_wolf := 1;
     max_rounds := 1; num_sheep := 2 |}.

(** The row the csv writer produces for a round number and a live count. *)
Definition csv_row (p : Z * Z) : list string := [pretty p.1; pretty p.2].

(** The entry [save_to_json] builds for a round. *)
Definition snapshot (round_num : Z) (w : Wolf.t) (l : list Sheep.t) : Snapshot :=
  {| round_no := round_num;
     wolf_pos := (round3 (Wolf.x w), round3 (Wolf.y w));
     sheep_pos :=
       map (fun s => if Sheep.is_alive s
                     then Some (round3 (Sheep.x s), round3 (Sheep.y s))
                     else None) l |}.

(** Number of sheep positions of an entry that are not null. *)
Definition live_entries (snap : Snapshot) : Z :=
  Z.of_nat (length (omap (fun o => o) (sheep_pos snap))).

(** The content of a file after the entries [new] have been appended one
    by one to a file whose content was [old]. *)
Definition appended {A} (old : option (list A)) (new : list A) : option (list A) :=
  match new with
  | [] => old
  | _ => Some (default [] old ++ new)
  end.

Definition no_files : Files := {| alive_csv := None; pos_json := None |}.

(** The command line without any option. *)
Definition no_args : Args.t :=
  {| Args.config := None; Args.help := false; Args.log := None;
     Args.rounds := None; Args.sheep := None; Args.wait := false |}.

(** No configuration file exists. *)
Definition no_config_files : ConfigFiles := fun _ => None.

(** The two stages of [configure], named for the proofs: the three
    distances, and an optional positive count with its default. *)
Definition read_dists (args : Args.t) (files : ConfigFiles) : option (R * R * R) :=
  match Args.config args with
  | Some (String c path) =>
      match files (String c path) with
      | None => None
      | Some (init_pos_limit, move_dist_sheep, move_dist_wolf) =>
          if Rltb init_pos_limit 0 then None
          else if Rltb move_dist_sheep 0 then None
          else if Rleb move_dist_wolf 0 then None
          else Some (init_pos_limit, move_dist_sheep, move_dist_wolf)
      end
  | _ => Some (10, 1 / 2, 1)%R
  end.

Definition count_arg (arg : option Z) (default : Z) : option Z :=
  match arg with
  | Some 0%Z | None => Some default
  | Some n => if (n <=? 0)%Z then None else Some n
  end.

(** ** The simulation on binary64 floats *)

(** The simulation once more, with Python's floats as IEEE 754 binary64
    numbers ([PrimFloat]) instead of reals: the model in which overflow,
    infinities and NaN exist and in which the code can be evaluated at a
    concrete input.  The C library's [atan2], [cos] and [sin] are a
    parameter ([Libm]); [v ** 2], which CPython computes with the C
    library's [pow], is the correctly rounded square, with the
    [OverflowError] CPython raises when a finite operand gives an
    infinite result. *)
Module F64.

Inductive Exception :=
| AttributeError   (* attribute access on [None] *)
| OverflowError.   (* [**] out of range *)

Inductive result (A : Type) :=
| Ok (a : A)
| Raise (e : Exception).
Arguments Ok {A} a.
Arguments Raise {A} e.

Record Libm := {
  atan2 : float -> float -> float;
  cos : float -> float;
  sin : float -> float
}.

(** [v ** 2] *)
Definition pow2 (v : float) : result float :=
  let sq := (v * v)%float in
  if PrimFloat.is_infinity sq && negb (PrimFloat.is_infinity v)
  then Raise OverflowError
  else Ok sq.

Definition euclidean_distance (x1 y1 x2 y2 : float) : result float :=
  match pow2 (x1 - x2)%float with
  | Raise e => Raise e
  | Ok a =>
      match pow2 (y1 - y2)%float with
      | Raise e => Raise e
      | Ok b => Ok (PrimFloat.sqrt (a + b))
      end
  end.

Module Wolf.
Record t := Build { x : float; y : float }.

Definition move_towards (m : Libm) (self : t) (target_x target_y distance : float)
  : t :=
  let angle := atan2 m (target_y - y self)%float (target_x - x self)%float in
  {| x := (x self + distance * cos m angle)%float;
     y := (y self + distance * sin m angle)%float |}.
End Wolf.

Module Sheep.
Record t := Build { x : float; y : float; is_alive : bool }.

Definition init (x0 y0 : float) : t := {| x := x0; y := y0; is_alive := true |}.

Definition move_randomly (self : t) (distance : float) (g : RNG)
  : Direction * t * RNG :=
  let (direction, g') := random_choice g in
  let self' :=
    match direction with
    | north => {| x := x self; y := (y self + distance)%float; is_alive := is_alive self |}
    | south => {| x := x self; y := (y self - distance)%float; is_alive := is_alive self |}
    | east => {| x := (x self + distance)%float; y := y self; is_alive := is_alive self |}
    | west => {| x := (x self - distance)%float; y := y self; is_alive := is_alive self |}
    end in
  (direction, self', g').

Definition kill (self : t) : t :=
  {| x := x self; y := y self; is_alive := false |}.
End Sheep.

(** The [for] loop of [closest_sheep]; [min_distance] starts at
    [float('inf')] and [<] is the comparison of floats, false whenever an
    operand is NaN. *)
Fixpoint closest_scan (wolf : Wolf.t) (l : list Sheep.t) (i : nat)
    (min_distance : float) (closest : option (nat * Sheep.t))
    : result (option (nat * Sheep.t)) :=
  match l with
  | [] => Ok closest
  | sheep :: rest =>
      match euclidean_distance (Wolf.x wolf) (Wolf.y wolf)
                               (Sheep.x sheep) (Sheep.y sheep) with
      | Raise e => Raise e
      | Ok distance =>
          if PrimFloat.ltb distance min_distance && Sheep.is_alive sheep
          then closest_scan wolf rest (S i) distance (Some (i, sheep))
          else closest_scan wolf rest (S i) min_distance closest
      end
  end.

Definition closest_sheep (wolf : Wolf.t) (sheep_list : list Sheep.t)
    : result (option (nat * Sheep.t)) :=
  closest_scan wolf sheep_list 0 infinity None.

Record Config := {
  init_pos_limit : float;
  move_dist_sheep : float;
  move_dist_wolf : float;
  max_rounds : Z;
  num_sheep : Z
}.

Record State := {
  wolf : Wolf.t;
  sheep_list : list Sheep.t;
  num_alive_sheep : Z
}.

Fixpoint move_all_sheep (distance : float) (l : list Sheep.t) (g : RNG)
    : list Sheep.t * RNG :=
  match l with
  | [] => ([], g)
  | sheep :: rest =>
      if Sheep.is_alive sheep then
        let '(_, sheep', g') := Sheep.move_randomly sheep distance g in
        let (rest', g'') := move_all_sheep distance rest g' in
        (sheep' :: rest', g'')
      else
        let (rest', g') := move_all_sheep distance rest g in
        (sheep :: rest', g')
  end.

(** The body of the round loop after the extinction test; [closest.x] on
    a [None] selection raises [AttributeError]. *)
Definition round_body (m : Libm) (cfg : Config) (st : State) (g : RNG)
    : result (State * Outcome * RNG) :=
  let (sheep1, g1) := move_all_sheep (move_dist_sheep cfg) (sheep_list st) g in
  match closest_sheep (wolf st) sheep1 with
  | Raise e => Raise e
  | Ok None => Raise AttributeError
  | Ok (Some (i, closest)) =>
      match euclidean_distance (Wolf.x (wolf st)) (Wolf.y (wolf st))
                               (Sheep.x closest) (Sheep.y closest) with
      | Raise e => Raise e
      | Ok distance =>
          if PrimFloat.leb distance (move_dist_wolf cfg) then
            Ok ({| wolf := {| Wolf.x := Sheep.x closest; Wolf.y := Sheep.y closest |};
                   sheep_list := alter Sheep.kill i sheep1;
                   num_alive_sheep := num_alive_sheep st - 1 |},
                caught i, g1)
          else
            Ok ({| wolf := Wolf.move_towards m (wolf st) (Sheep.x closest)
                             (Sheep.y closest) (move_dist_wolf cfg);
                   sheep_list := sheep1;
                   num_alive_sheep := num_alive_sheep st |},
                chasing i, g1)
      end
  end.

(** The round loop; the result of a run that completes is the rows of
    alive.csv, the final state and the way the loop ended. *)
Fixpoint rounds_loop (m : Libm) (cfg : Config) (rounds : list Z) (st : State)
    (g : RNG) : result (list (Z * Z) * State * Exit) :=
  match rounds with
  | [] => Ok ([], st, range_exhausted)
  | round_num :: rest =>
      if (num_alive_sheep st =? 0)%Z then Ok ([], st, all_eaten)
      else
        match round_body m cfg st g with
        | Raise e => Raise e
        | Ok (st', _, g') =>
            match rounds_loop m cfg rest st' g' with
            | Raise e => Raise e
            | Ok (rows, final, exit) =>
                Ok ((round_num, num_alive_sheep st') :: rows, final, exit)
            end
        end
  end.

(** [random.uniform(a, b)], from the value [r] of [random.random()]. *)
Definition uniform (a b r : float) : float := (a + (b - a) * r)%float.

(** The state built before the loop; [random k] holds the two values
    [random.random()] returns for sheep [k]. *)
Definition initial_state (cfg : Config) (random : nat -> float * float) : State :=
  {| wolf := {| Wolf.x := 0; Wolf.y := 0 |};
     sheep_list :=
       map (fun k =>
              Sheep.init
                (uniform (- init_pos_limit cfg) (init_pos_limit cfg) (fst (random k)))
                (uniform (- init_pos_limit cfg) (init_pos_limit cfg) (snd (random k))))
           (seq 0 (Z.to_nat (num_sheep cfg)));
     num_alive_sheep := num_sheep cfg |}.

Definition main (m : Libm) (cfg : Config) (random : nat -> float * float) (g : RNG)
    : result (list (Z * Z) * State * Exit) :=
  rounds_loop m cfg (range 1 (max_rounds cfg + 1)) (initial_state cfg random) g.

(** The tests of [main] that reject a configuration. *)
Definition rejected (cfg : Config) : bool :=
  PrimFloat.ltb (init_pos_limit cfg) 0 || PrimFloat.ltb (move_dist_sheep cfg) 0
  || PrimFloat.leb (move_dist_wolf cfg) 0
  || (max_rounds cfg <=? 0)%Z || (num_sheep cfg <=? 0)%Z.

(** A sheep at [(3 * 2^510, 3 * 2^510)]: the squares of its coordinates
    are finite, their sum is not. *)
Definition far_sheep : Sheep.t := Sheep.init 0x1.8p+511 0x1.8p+511.

(** One sheep, a position limit of [2^512], the default steps and number
    of rounds. *)
Definition cfg_far : Config :=
  {| init_pos_limit := 0x1p+512; move_dist_sheep := 0.5; move_dist_wolf := 1;
     max_rounds := 50; num_sheep := 1 |}.

(** [random.random()] returns 0.875 for both coordinates, which puts the
    sheep at [(3 * 2^510, 3 * 2^510)]. *)
Definition random_far : nat -> float * float := fun _ => (0.875%float, 0.875%float).

End F64.

(** * Basic facts *)

Lemma Rltb_true a b : Rltb a b = true <-> (a < b)%R.
Proof. unfold Rltb. destruct (Rlt_dec a b); split; auto; discriminate. Qed.

Lemma Rltb_false a b : Rltb a b = false <-> (b <= a)%R.
Proof.
  unfold Rltb. destruct (Rlt_dec a b); split; auto; try discriminate; lra.
Qed.

Lemma Rleb_true a b : Rleb a b = true <-> (a <= b)%R.
Proof. unfold Rleb. destruct (Rle_dec a b); split; auto; discriminate. Qed.

Lemma Rleb_false a b : Rleb a b = false <-> (b < a)%R.
Proof.
  unfold Rleb. destruct (Rle_dec a b); split; auto; try discriminate; lra.
Qed.

(** ** The selector *)

Lemma scan_inv_step w pre s m c :
  scan_inv w pre m c ->
  scan_inv w (pre ++ [s])
    (if lt_min (distance_to w s) m && Sheep.is_alive s
     then Some (distance_to w s) else m)
    (if lt_min (distance_to w s) m && Sheep.is_alive s
     then Some (length pre, s) else c).
Proof.
  intros Hinv.
  destruct (lt_min (distance_to w s) m && Sheep.is_alive s) eqn:Hsel.
  - apply andb_true_iff in Hsel as [Hlt Halive]. simpl.
    split; [reflexivity|]. split; [|split; [exact Halive|]].
    { rewrite lookup_app_r, Nat.sub_diag by lia. reflexivity. }
    intros j s' Hj Hs'.
    destruct (decide (j < length pre)%nat) as [Hin|Hout].
    + rewrite lookup_app_l in Hj by exact Hin.
      destruct c as [[k c]|]; simpl in Hinv.
      * destruct Hinv as (-> & _ & _ & Hmin).
        apply Rltb_true in Hlt.
        destruct (Hmin j s' Hj Hs') as [Hle _].
        split; [lra|]. intros Heq. lra.
      * destruct Hinv as [_ Hdead].
        rewrite Hdead in Hs'; [discriminate|].
        apply list_elem_of_lookup. eauto.
    + apply lookup_lt_Some in Hj as Hlen. rewrite length_app in Hlen.
      simpl in Hlen.
      assert (j = length pre) as -> by lia.
      rewrite lookup_app_r, Nat.sub_diag in Hj by lia.
      injection Hj as <-. split; [lra|]. intros _. lia.
  - destruct c as [[k c]|]; simpl in *.
    + destruct Hinv as (-> & Hk & Hc & Hmin).
      split; [reflexivity|]. split; [|split; [exact Hc|]].
      { rewrite lookup_app_l; [exact Hk|]. eapply lookup_lt_Some, Hk. }
      intros j s' Hj Hs'.
      destruct (decide (j < length pre)%nat) as [Hin|Hout].
      * rewrite lookup_app_l in Hj by exact Hin. eauto.
      * apply lookup_lt_Some in Hj as Hlen. rewrite length_app in Hlen.
        simpl in Hlen.
        assert (j = length pre) as -> by lia.
        rewrite lookup_app_r, Nat.sub_diag in Hj by lia.
        injection Hj as <-. rewrite Hs', andb_true_r in Hsel.
        simpl in Hsel. apply Rltb_false in Hsel.
        split; [exact Hsel|]. intros _.
        apply lookup_lt_Some in Hk. lia.
    + destruct Hinv as [-> Hdead]. simpl in Hsel.
      split; [reflexivity|]. intros s' Hs'.
      apply elem_of_app in Hs' as [Hs'|Hs']; [auto|].
      apply list_elem_of_singleton in Hs' as ->. exact Hsel.
Qed.

Lemma closest_scan_inv w l : forall pre m c,
  scan_inv w pre m c ->
  exists m', scan_inv w (pre ++ l) m' (closest_scan w l (length pre) m c).
Proof.
  induction l as [|s rest IH]; intros pre m c Hinv.
  - exists m. rewrite app_nil_r. exact Hinv.
  - apply (scan_inv_step w pre s) in Hinv.
    simpl. fold (distance_to w s).
    replace (pre ++ s :: rest) with ((pre ++ [s]) ++ rest)
      by (rewrite <- app_assoc; reflexivity).
    replace (S (length pre)) with (length (pre ++ [s]))
      by (rewrite length_app; simpl; lia).
    destruct (lt_min (distance_to w s) m && Sheep.is_alive s);
      eapply IH, Hinv.
Qed.

Lemma closest_sheep_inv w l :
  exists m, scan_inv w l m (closest_sheep w l).
Proof.
  apply (closest_scan_inv w l [] None None).
  split; [reflexivity|]. intros s Hs. inversion Hs.
Qed.

Lemma closest_sheep_None w l :
  closest_sheep w l = None <-> forall s, s ∈ l -> Sheep.is_alive s = false.
Proof.
  destruct (closest_sheep_inv w l) as [m Hinv].
  destruct (closest_sheep w l) as [[k c]|]; simpl in Hinv.
  - destruct Hinv as (_ & Hk & Hc & _). split; [discriminate|].
    intros Hdead. rewrite Hdead in Hc; [discriminate|].
    apply list_elem_of_lookup. eauto.
  - destruct Hinv as [_ Hdead]. split; auto.
Qed.

Lemma closest_sheep_Some w l i c :
  closest_sheep w l = Some (i, c) ->
  l !! i = Some c /\ Sheep.is_alive c = true /\
  forall j s, l !! j = Some s -> Sheep.is_alive s = true ->
    (distance_to w c <= distance_to w s)%R /\
    (distance_to w s = distance_to w c -> (i <= j)%nat).
Proof.
  intros Heq. destruct (closest_sheep_inv w l) as [m Hinv].
  rewrite Heq in Hinv. simpl in Hinv. tauto.
Qed.

(** ** The sheep's moves *)

Lemma move_randomly_alive s d g :
  Sheep.is_alive (Sheep.move_randomly s d g).1.2 = Sheep.is_alive s.
Proof. unfold Sheep.move_randomly, random_choice. destruct (g 0%nat); reflexivity. Qed.

Lemma move_randomly_zero s g :
  (Sheep.move_randomly s 0 g).1.2 = s.
Proof.
  unfold Sheep.move_randomly, random_choice.
  destruct s as [sx sy a]. destruct (g 0%nat); simpl; f_equal; lra.
Qed.

Lemma move_all_sheep_cons d s rest g :
  move_all_sheep d (s :: rest) g =
  if Sheep.is_alive s then
    let '(_, s', g') := Sheep.move_randomly s d g in
    let (rest', g'') := move_all_sheep d rest g' in (s' :: rest', g'')
  else
    let (rest', g') := move_all_sheep d rest g in (s :: rest', g').
Proof. reflexivity. Qed.

Lemma move_all_sheep_moved d l : forall g,
  Forall2 (moved d) l (move_all_sheep d l g).1.
Proof.
  induction l as [|s rest IH]; intros g; [constructor|].
  rewrite move_all_sheep_cons.
  destruct (Sheep.is_alive s) eqn:Ha.
  - pose proof (move_randomly_alive s d g) as Hlive.
    pose proof (fun g => move_randomly_zero s g) as Hzero.
    destruct (Sheep.move_randomly s d g) as [[dir s'] g'] eqn:Hmove.
    specialize (IH g'). destruct (move_all_sheep d rest g') as [rest' g''].
    cbn [fst snd] in *. constructor; [|exact IH].
    repeat split; [congruence|congruence|].
    intros ->. specialize (Hzero g). rewrite Hmove in Hzero. exact Hzero.
  - specialize (IH g). destruct (move_all_sheep d rest g) as [rest' g'].
    cbn [fst snd] in *. constructor; [|exact IH]. repeat split; auto.
Qed.

(** ** Counting live sheep *)

Lemma count_alive_cons s l :
  count_alive (s :: l) =
  ((if Sheep.is_alive s then 1 else 0) + count_alive l)%Z.
Proof.
  unfold count_alive. rewrite filter_cons.
  destruct (decide (Sheep.is_alive s = true)) as [->|Hn]; simpl.
  - lia.
  - destruct (Sheep.is_alive s); [congruence|]. lia.
Qed.

Lemma count_alive_nonneg l : (0 <= count_alive l)%Z.
Proof. unfold count_alive. lia. Qed.

Lemma count_alive_moved d l l' :
  Forall2 (moved d) l l' -> count_alive l' = count_alive l.
Proof.
  induction 1 as [|s s' l l' [Ha _] _ IH]; [reflexivity|].
  rewrite !count_alive_cons, Ha, IH. reflexivity.
Qed.

Lemma count_alive_kill l : forall i c,
  l !! i = Some c -> Sheep.is_alive c = true ->
  count_alive (alter Sheep.kill i l) = (count_alive l - 1)%Z.
Proof.
  induction l as [|s rest IH]; intros [|i] c Hi Hc; try discriminate.
  - injection Hi as ->.
    change (alter Sheep.kill 0%nat (c :: rest)) with (Sheep.kill c :: rest).
    rewrite !count_alive_cons, Hc. simpl. lia.
  - change (alter Sheep.kill (S i) (s :: rest))
      with (s :: alter Sheep.kill i rest).
    change ((s :: rest) !! S i) with (rest !! i) in Hi.
    rewrite !count_alive_cons, (IH i c Hi Hc). lia.
Qed.

Lemma count_alive_zero l :
  count_alive l = 0%Z <-> forall s, s ∈ l -> Sheep.is_alive s = false.
Proof.
  induction l as [|s rest IH].
  - split; [|reflexivity]. intros _ s Hs. inversion Hs.
  - rewrite count_alive_cons. pose proof (count_alive_nonneg rest).
    split.
    + intros Hz s' Hs'. destruct (Sheep.is_alive s) eqn:Ha; [lia|].
      apply elem_of_cons in Hs' as [->|Hs']; [exact Ha|].
      apply IH; [lia|exact Hs'].
    + intros Hdead. rewrite (Hdead s) by left.
      apply IH. intros s' Hs'. apply Hdead. right. exact Hs'.
Qed.

(** ** One round *)

Lemma round_body_unfold cfg st g :
  round_body cfg st g =
  match closest_sheep (wolf st) (sheep_after_moves cfg st g) with
  | None => Raise AttributeError
  | Some (i, c) =>
      if Rleb (distance_to (wolf st) c) (move_dist_wolf cfg)
      then Ok (after_catch st (sheep_after_moves cfg st g) i c, caught i,
               (move_all_sheep (move_dist_sheep cfg) (sheep_list st) g).2)
      else Ok (after_chase cfg st (sheep_after_moves cfg st g) c, chasing i,
               (move_all_sheep (move_dist_sheep cfg) (sheep_list st) g).2)
  end.
Proof.
  unfold round_body, sheep_after_moves.
  destruct (move_all_sheep (move_dist_sheep cfg) (sheep_list st) g) as [sheep1 g1].
  reflexivity.
Qed.

(** Every completed round went one of the two ways. *)
Lemma round_body_Ok cfg st g st' out g' :
  round_body cfg st g = Ok (st', out, g') ->
  exists i c,
    closest_sheep (wolf st) (sheep_after_moves cfg st g) = Some (i, c) /\
    ((distance_to (wolf st) c <= move_dist_wolf cfg)%R /\ out = caught i /\
       st' = after_catch st (sheep_after_moves cfg st g) i c
     \/
     (move_dist_wolf cfg < distance_to (wolf st) c)%R /\ out = chasing i /\
       st' = after_chase cfg st (sheep_after_moves cfg st g) c).
Proof.
  rewrite round_body_unfold.
  destruct (closest_sheep (wolf st) (sheep_after_moves cfg st g))
    as [[i c]|]; [|discriminate].
  destruct (Rleb (distance_to (wolf st) c) (move_dist_wolf cfg)) eqn:Hle;
    intros [= <- <- <-]; exists i, c; (split; [reflexivity|]).
  - left. apply Rleb_true in Hle. auto.
  - right. apply Rleb_false in Hle. auto.
Qed.

Lemma sheep_after_moves_moved cfg st g :
  Forall2 (moved (move_dist_sheep cfg)) (sheep_list st) (sheep_after_moves cfg st g).
Proof. apply move_all_sheep_moved. Qed.

Lemma sheep_after_moves_count cfg st g :
  count_alive (sheep_after_moves cfg st g) = count_alive (sheep_list st).
Proof. eapply count_alive_moved, sheep_after_moves_moved. Qed.

(** In the real-number model a round that starts with a live sheep
    selects one and completes. *)
Lemma round_body_selects cfg st g :
  count_alive (sheep_list st) <> 0%Z ->
  exists i c, closest_sheep (wolf st) (sheep_after_moves cfg st g) = Some (i, c).
Proof.
  intros Hlive.
  destruct (closest_sheep (wolf st) (sheep_after_moves cfg st g))
    as [[i c]|] eqn:Hsel; [eauto|].
  exfalso. apply Hlive. rewrite <- (sheep_after_moves_count cfg st g).
  apply count_alive_zero. eapply closest_sheep_None, Hsel.
Qed.

Lemma round_body_total cfg st g :
  count_alive (sheep_list st) <> 0%Z ->
  exists st' out g', round_body cfg st g = Ok (st', out, g').
Proof.
  intros Hlive. destruct (round_body_selects cfg st g Hlive) as (i & c & Hsel).
  rewrite round_body_unfold, Hsel.
  destruct (Rleb (distance_to (wolf st) c) (move_dist_wolf cfg)); eauto.
Qed.

Lemma round_body_count cfg st g st' out g' :
  round_body cfg st g = Ok (st', out, g') ->
  num_alive_sheep st' =
    (num_alive_sheep st - match out with caught _ => 1 | chasing _ => 0 end)%Z /\
  count_alive (sheep_list st') =
    (count_alive (sheep_list st) - match out with caught _ => 1 | chasing _ => 0 end)%Z.
Proof.
  intros Hround.
  destruct (round_body_Ok _ _ _ _ _ _ Hround) as (i & c & Hsel & Hcase).
  apply closest_sheep_Some in Hsel as (Hi & Hc & _).
  destruct Hcase as [(_ & -> & ->)|(_ & -> & ->)]; simpl.
  - split; [reflexivity|].
    rewrite (count_alive_kill _ _ _ Hi Hc), sheep_after_moves_count. reflexivity.
  - rewrite sheep_after_moves_count. lia.
Qed.

Lemma round_body_consistent cfg st g st' out g' :
  consistent st -> round_body cfg st g = Ok (st', out, g') -> consistent st'.
Proof.
  unfold consistent. intros Hc Hround.
  destruct (round_body_count _ _ _ _ _ _ Hround) as [-> ->]. lia.
Qed.

Lemma moved_evolved d s s' : moved d s s' -> evolved d s s'.
Proof.
  intros (Ha & _ & Hz). split; [congruence|]. intros Hd.
  rewrite (Hz Hd). auto.
Qed.

Lemma evolved_kill d s s' : evolved d s s' -> evolved d s (Sheep.kill s').
Proof. intros [_ Hz]. split; [discriminate|exact Hz]. Qed.

Lemma evolved_refl d s : evolved d s s.
Proof. split; auto. Qed.

Lemma evolved_trans d s1 s2 s3 :
  evolved d s1 s2 -> evolved d s2 s3 -> evolved d s1 s3.
Proof.
  intros [Ha Hz] [Ha' Hz']. split; [auto|].
  intros Hd. destruct (Hz Hd), (Hz' Hd). split; congruence.
Qed.

Lemma round_body_evolved cfg st g st' out g' :
  round_body cfg st g = Ok (st', out, g') ->
  Forall2 (evolved (move_dist_sheep cfg)) (sheep_list st) (sheep_list st').
Proof.
  intros Hround.
  destruct (round_body_Ok _ _ _ _ _ _ Hround) as (i & c & _ & Hcase).
  assert (Forall2 (evolved (move_dist_sheep cfg)) (sheep_list st)
            (sheep_after_moves cfg st g)) as Hmoves.
  { eapply Forall2_impl; [apply sheep_after_moves_moved|].
    apply moved_evolved. }
  destruct Hcase as [(_ & _ & ->)|(_ & _ & ->)]; simpl; [|exact Hmoves].
  apply Forall2_alter_r; [exact Hmoves|].
  intros s s' _ _. apply evolved_kill.
Qed.

Lemma steps_evolved cfg st st' :
  rtc (step cfg) st st' ->
  Forall2 (evolved (move_dist_sheep cfg)) (sheep_list st) (sheep_list st').
Proof.
  induction 1 as [st|st st1 st2 (_ & g & out & g' & Hround) _ IH].
  - apply Forall_Forall2_diag, Forall_forall. intros. apply evolved_refl.
  - eapply Forall2_trans; [|eapply round_body_evolved, Hround|exact IH].
    apply evolved_trans.
Qed.

Lemma steps_consistent cfg st st' :
  consistent st -> rtc (step cfg) st st' -> consistent st'.
Proof.
  intros Hc Hsteps. induction Hsteps as [|st st1 st2 (_ & g & out & g' & Hr) _ IH];
    [exact Hc|].
  apply IH. eapply round_body_consistent; eassumption.
Qed.

(** ** The round loop *)

Lemma rounds_loop_cons cfg n rest st g :
  rounds_loop cfg (n :: rest) st g =
  if (num_alive_sheep st =? 0)%Z then
    Ok {| rows := []; final := st; exit := all_eaten |}
  else
    match round_body cfg st g with
    | Raise e => Raise e
    | Ok (st', _, g') =>
        match rounds_loop cfg rest st' g' with
        | Raise e => Raise e
        | Ok r => Ok {| rows := (n, num_alive_sheep st') :: rows r;
                        final := final r; exit := exit r |}
        end
    end.
Proof. reflexivity. Qed.

(** Induction over the completed runs of the loop. *)
Lemma rounds_loop_run_ind cfg (P : list Z -> State -> Run -> Prop) :
  (forall st, P [] st {| rows := []; final := st; exit := range_exhausted |}) ->
  (forall n rest st, num_alive_sheep st = 0%Z ->
     P (n :: rest) st {| rows := []; final := st; exit := all_eaten |}) ->
  (forall n rest st g st' out g' r,
     num_alive_sheep st <> 0%Z ->
     round_body cfg st g = Ok (st', out, g') ->
     rounds_loop cfg rest st' g' = Ok r -> P rest st' r ->
     P (n :: rest) st {| rows := (n, num_alive_sheep st') :: rows r;
                         final := final r; exit := exit r |}) ->
  forall rounds st g r, rounds_loop cfg rounds st g = Ok r -> P rounds st r.
Proof.
  intros Hnil Hbreak Hround.
  induction rounds as [|n rest IH]; intros st g r.
  - intros [= <-]. apply Hnil.
  - rewrite rounds_loop_cons.
    destruct (Z.eqb_spec (num_alive_sheep st) 0) as [Hz|Hnz].
    + intros [= <-]. apply Hbreak, Hz.
    + destruct (round_body cfg st g) as [[[st' out] g']|] eqn:Hbody; [|discriminate].
      destruct (rounds_loop cfg rest st' g') as [r'|] eqn:Hrest; [|discriminate].
      intros [= <-]. eapply Hround; eauto.
Qed.

(** In the real-number model the loop never raises from a consistent
    state. *)
Lemma rounds_loop_total cfg rounds : forall st g,
  consistent st -> exists r, rounds_loop cfg rounds st g = Ok r.
Proof.
  induction rounds as [|n rest IH]; intros st g Hc; [simpl; eauto|].
  rewrite rounds_loop_cons.
  destruct (Z.eqb_spec (num_alive_sheep st) 0) as [Hz|Hnz]; [eauto|].
  destruct (round_body_total cfg st g) as (st' & out & g' & Hbody).
  { rewrite <- Hc. exact Hnz. }
  rewrite Hbody.
  destruct (IH st' g') as [r ->]; [|eauto].
  eapply round_body_consistent; eassumption.
Qed.

Lemma rounds_loop_steps cfg rounds st g r :
  rounds_loop cfg rounds st g = Ok r -> rtc (step cfg) st (final r).
Proof.
  revert rounds st g r. apply rounds_loop_run_ind; simpl.
  - intros st. apply rtc_refl.
  - intros _ _ st _. apply rtc_refl.
  - intros n rest st g st' out g' r Hnz Hbody _ IH.
    eapply rtc_l; [|exact IH]. split; [exact Hnz|eauto].
Qed.

(** The rows carry the round numbers in order, one per completed round. *)
Lemma rounds_loop_numbers cfg rounds st g r :
  rounds_loop cfg rounds st g = Ok r ->
  (rows r).*1 = take (length (rows r)) rounds.
Proof.
  revert rounds st g r. apply rounds_loop_run_ind; simpl; try reflexivity.
  intros n rest st g st' out g' r _ _ _ IH. f_equal. exact IH.
Qed.

Lemma rounds_loop_length cfg rounds st g r :
  rounds_loop cfg rounds st g = Ok r ->
  (length (rows r) <= length rounds)%nat /\
  (exit r = all_eaten <-> (length (rows r) < length rounds)%nat).
Proof.
  revert rounds st g r. apply rounds_loop_run_ind; simpl.
  - intros _. split; [lia|]. split; [discriminate|lia].
  - intros n rest _ _. split; [lia|]. split; [lia|reflexivity].
  - intros n rest st g st' out g' r _ _ _ [IHle IHex].
    split; [lia|]. rewrite IHex. lia.
Qed.

(** The extinction test ends the loop exactly when the count is 0 with a
    round still to go: in the state the loop started from, or in the row of
    a round that is not the last one; the final count is then 0. *)
Lemma rounds_loop_break cfg rounds st g r :
  rounds_loop cfg rounds st g = Ok r ->
  (exit r = all_eaten -> num_alive_sheep (final r) = 0%Z) /\
  (exit r = all_eaten <->
   (num_alive_sheep st = 0%Z /\ (0 < length rounds)%nat) \/
   exists k n, rows r !! k = Some (n, 0%Z) /\ (S k < length rounds)%nat).
Proof.
  revert rounds st g r. apply rounds_loop_run_ind; simpl.
  - intros st. split; [discriminate|]. split; [discriminate|].
    intros [[_ Hlt]|(k & n & Hk & _)]; [lia|discriminate].
  - intros n rest st Hz. split; [auto|]. split; [|reflexivity].
    intros _. left. split; [exact Hz|lia].
  - intros n rest st g st' out g' r Hnz Hbody Hrest [IHfin IHex].
    split; [exact IHfin|]. rewrite IHex. split.
    + intros [[Hz Hlt]|(k & m & Hk & Hlt)].
      * right. exists 0%nat, n. rewrite Hz. split; [reflexivity|lia].
      * right. exists (S k), m. split; [exact Hk|lia].
    + intros [[Hz _]|(k & m & Hk & Hlt)]; [contradiction|].
      destruct k as [|k]; simpl in Hk.
      * injection Hk as _ Hz. left. split; [exact Hz|lia].
      * right. exists k, m. split; [exact Hk|lia].
Qed.

(** ** The driver *)

Lemma range_length a b : length (range a b) = Z.to_nat (b - a).
Proof. unfold range. rewrite length_map, length_seq. reflexivity. Qed.

Lemma range_lookup a b k n :
  range a b !! k = Some n -> n = (a + Z.of_nat k)%Z /\ (n < b)%Z.
Proof.
  unfold range. intros Hk.
  apply list_lookup_fmap_Some_1 in Hk as (j & -> & Hj).
  apply lookup_seq in Hj as [-> Hlt]. simpl. lia.
Qed.

Lemma initial_state_consistent cfg uniform :
  (0 <= num_sheep cfg)%Z -> consistent (initial_state cfg uniform).
Proof.
  intros Hn. unfold consistent, initial_state. simpl.
  generalize (Z.to_nat (num_sheep cfg)) (Z2Nat.id _ Hn).
  intros n <-. generalize 0%nat.
  induction n as [|n IH]; intros k; [reflexivity|].
  change (seq k (S n)) with (k :: seq (S k) n).
  rewrite map_cons, count_alive_cons. simpl Sheep.is_alive.
  rewrite <- IH. lia.
Qed.

Lemma main_total cfg uniform g :
  (0 <= num_sheep cfg)%Z -> exists r, main cfg uniform g = Ok r.
Proof. intros Hn. apply rounds_loop_total, initial_state_consistent, Hn. Qed.

Lemma main_reachable cfg uniform g r :
  main cfg uniform g = Ok r -> reachable cfg uniform (final r).
Proof. apply rounds_loop_steps. Qed.

Lemma reachable_consistent cfg uniform st :
  (0 <= num_sheep cfg)%Z -> reachable cfg uniform st -> consistent st.
Proof.
  intros Hn. apply steps_consistent, initial_state_consistent, Hn.
Qed.

(** ** The sample runs *)

Lemma closest_sheep_single w s :
  Sheep.is_alive s = true -> closest_sheep w [s] = Some (0%nat, s).
Proof.
  intros Ha. unfold closest_sheep. cbn [closest_scan lt_min]. rewrite Ha.
  reflexivity.
Qed.

Lemma round_one_sheep uniform :
  let st := initial_state cfg_one uniform in
  let c := stood_north (uniform 0%nat).1 (uniform 0%nat).2 in
  round_body cfg_one st (always north) =
  if Rleb (distance_to (wolf st) c) 1
  then Ok (after_catch st [c] 0 c, caught 0, always north)
  else Ok (after_chase cfg_one st [c] c, chasing 0, always north).
Proof.
  intros st c. rewrite round_body_unfold.
  change (sheep_after_moves cfg_one st (always north)) with [c].
  rewrite closest_sheep_single by reflexivity. reflexivity.
Qed.

Lemma distance_at_origin :
  distance_to {| Wolf.x := 0; Wolf.y := 0 |} (stood_north 0 0) = 0%R.
Proof.
  unfold distance_to, euclidean_distance, stood_north. simpl Sheep.x. simpl Sheep.y.
  simpl Wolf.x. simpl Wolf.y.
  replace ((0 - 0) ^ 2 + (0 - (0 + 0)) ^ 2)%R with 0%R by ring.
  apply sqrt_0.
Qed.


Lemma sample_catch :
  let st := initial_state cfg_one at_origin in
  round_body cfg_one st (always north) =
  Ok (after_catch st [stood_north 0 0] 0 (stood_north 0 0), caught 0, always north).
Proof.
  intros st. subst st. rewrite (round_one_sheep at_origin).
  change (distance_to (wolf (initial_state cfg_one at_origin))
            (stood_north (at_origin 0%nat).1 (at_origin 0%nat).2))
    with (distance_to {| Wolf.x := 0; Wolf.y := 0 |} (stood_north 0 0)).
  rewrite distance_at_origin.
  replace (Rleb 0 1) with true by (symmetry; apply Rleb_true; lra).
  reflexivity.
Qed.



Lemma sample_main_catch :
  main cfg_one at_origin (always north) =
  Ok {| rows := [(1%Z, 0%Z)];
        final := after_catch (initial_state cfg_one at_origin)
                   [stood_north 0 0] 0 (stood_north 0 0);
        exit := range_exhausted |}.
Proof.
  unfold main. change (range 1 (max_rounds cfg_one + 1)) with [1%Z].
  rewrite rounds_loop_cons.
  change (num_alive_sheep (initial_state cfg_one at_origin) =? 0)%Z with false.
  cbv iota. rewrite sample_catch. reflexivity.
Qed.

(** * The claims *)

(** C1.  In every round that completes, the selector has returned a live
    sheep of the moved population, and the wolf catches it if and only if
    its distance to that sheep, measured after the sheep have moved and
    before the wolf moves, is at most the wolf's step.  On a catch the
    sheep's flag is cleared, the wolf stands exactly on the caught sheep's
    position and the live count drops by one; otherwise the count is
    unchanged and the selected sheep stays alive. *)
Theorem capture_iff_within_step cfg st g st' out g' :
  round_body cfg st g = Ok (st', out, g') ->
  exists i c,
    closest_sheep (wolf st) (sheep_after_moves cfg st g) = Some (i, c) /\
    sheep_after_moves cfg st g !! i = Some c /\ Sheep.is_alive c = true /\
    (out = caught i \/ out = chasing i) /\
    (out = caught i <-> (distance_to (wolf st) c <= move_dist_wolf cfg)%R) /\
    (out = caught i ->
       sheep_list st' !! i = Some (Sheep.kill c) /\
       Sheep.is_alive (Sheep.kill c) = false /\
       Sheep.x (Sheep.kill c) = Sheep.x c /\ Sheep.y (Sheep.kill c) = Sheep.y c /\
       Wolf.x (wolf st') = Sheep.x c /\ Wolf.y (wolf st') = Sheep.y c /\
       num_alive_sheep st' = (num_alive_sheep st - 1)%Z /\
       count_alive (sheep_list st') = (count_alive (sheep_list st) - 1)%Z) /\
    (out = chasing i ->
       sheep_list st' !! i = Some c /\
       num_alive_sheep st' = num_alive_sheep st /\
       count_alive (sheep_list st') = count_alive (sheep_list st)).
Proof.
  intros Hround.
  destruct (round_body_Ok _ _ _ _ _ _ Hround) as (i & c & Hsel & Hcase).
  destruct (closest_sheep_Some _ _ _ _ Hsel) as (Hi & Hc & _).
  exists i, c. split; [exact Hsel|]. split; [exact Hi|]. split; [exact Hc|].
  destruct Hcase as [(Hnear & -> & ->)|(Hfar & -> & ->)].
  - split; [auto|]. split; [tauto|]. split; [|discriminate].
    intros _. unfold after_catch. cbn [sheep_list wolf num_alive_sheep Wolf.x Wolf.y].
    rewrite list_lookup_alter_eq, Hi, (count_alive_kill _ _ _ Hi Hc),
      sheep_after_moves_count.
    repeat split; reflexivity.
  - split; [auto|]. split; [split; [discriminate|lra]|].
    split; [discriminate|]. intros _.
    unfold after_chase. cbn [sheep_list num_alive_sheep].
    rewrite sheep_after_moves_count. auto.
Qed.

Lemma capture_iff_within_step_witness :
  round_body cfg_one (initial_state cfg_one at_origin) (always north) =
    Ok (after_catch (initial_state cfg_one at_origin)
          [stood_north 0 0] 0 (stood_north 0 0), caught 0, always north) /\
  exists i c,
    closest_sheep (wolf (initial_state cfg_one at_origin))
      (sheep_after_moves cfg_one (initial_state cfg_one at_origin) (always north))
      = Some (i, c) /\
    (caught 0 = caught i <->
     (distance_to (wolf (initial_state cfg_one at_origin)) c
      <= move_dist_wolf cfg_one)%R).
Proof.
  split; [apply sample_catch|].
  destruct (capture_iff_within_step cfg_one _ _ _ _ _ sample_catch)
    as (i & c & Hsel & _ & _ & _ & Hiff & _).
  exists i, c. split; assumption.
Defined.

(** C4.  In every state the loop of [main] reaches, the live count equals
    the number of sheep whose flag is set; a round lowers both by one when
    it ends in a catch and leaves them unchanged otherwise. *)
Theorem live_count_invariant cfg uniform :
  (0 < num_sheep cfg)%Z ->
  (forall st, reachable cfg uniform st ->
     num_alive_sheep st = count_alive (sheep_list st)) /\
  (forall g r, main cfg uniform g = Ok r ->
     num_alive_sheep (final r) = count_alive (sheep_list (final r))) /\
  (forall st g st' out g', round_body cfg st g = Ok (st', out, g') ->
     num_alive_sheep st' =
       (num_alive_sheep st - match out with caught _ => 1 | chasing _ => 0 end)%Z /\
     count_alive (sheep_list st') =
       (count_alive (sheep_list st)
        - match out with caught _ => 1 | chasing _ => 0 end)%Z).
Proof.
  intros Hn. split; [|split].
  - intros st. apply reachable_consistent. lia.
  - intros g r Hmain.
    apply (reachable_consistent cfg uniform); [lia|].
    eapply main_reachable, Hmain.
  - apply round_body_count.
Qed.

Lemma live_count_invariant_witness :
  (0 < num_sheep cfg_one)%Z /\
  num_alive_sheep (initial_state cfg_one at_origin) =
    count_alive (sheep_list (initial_state cfg_one at_origin)).
Proof.
  assert (0 < num_sheep cfg_one)%Z as Hn by (simpl; lia).
  split; [exact Hn|].
  apply (live_count_invariant cfg_one at_origin Hn). apply rtc_refl.
Defined.

(** C7.  A sheep is created alive, and no operation raises a cleared flag:
    a random move keeps the flag, a catch clears it, and over any number
    of rounds the population keeps its length and a sheep that is dead
    stays dead. *)
Theorem liveness_monotonic cfg :
  (forall x0 y0, Sheep.is_alive (Sheep.init x0 y0) = true) /\
  (forall s d g, Sheep.is_alive (Sheep.move_randomly s d g).1.2 = Sheep.is_alive s) /\
  (forall s, Sheep.is_alive (Sheep.kill s) = false) /\
  (forall st st', rtc (step cfg) st st' ->
     length (sheep_list st') = length (sheep_list st) /\
     forall i s s', sheep_list st !! i = Some s -> sheep_list st' !! i = Some s' ->
       Sheep.is_alive s = false -> Sheep.is_alive s' = false).
Proof.
  split; [reflexivity|]. split; [apply move_randomly_alive|].
  split; [reflexivity|]. intros st st' Hsteps.
  apply steps_evolved in Hsteps.
  split; [symmetry; eapply Forall2_length, Hsteps|].
  intros i s s' Hs Hs' Hdead.
  destruct (Forall2_lookup_lr _ _ _ _ _ _ Hsteps Hs Hs') as [Hmono _].
  destruct (Sheep.is_alive s'); [|reflexivity].
  rewrite Hmono in Hdead; [discriminate|reflexivity].
Qed.

(** C8.  With a step of 0 a random move still draws and returns a
    direction but leaves the sheep where it is; when the configured sheep
    step is 0, no sheep changes position over any number of rounds. *)
Theorem zero_step_keeps_position :
  (forall s g,
     Sheep.move_randomly s 0 g = (g 0%nat, s, fun n => g (S n))) /\
  (forall cfg st st', move_dist_sheep cfg = 0%R -> rtc (step cfg) st st' ->
     forall i s s', sheep_list st !! i = Some s -> sheep_list st' !! i = Some s' ->
       Sheep.x s' = Sheep.x s /\ Sheep.y s' = Sheep.y s).
Proof.
  split.
  - intros s g. pose proof (move_randomly_zero s g) as Hz.
    unfold Sheep.move_randomly, random_choice in *. simpl in Hz.
    rewrite Hz. reflexivity.
  - intros cfg st st' Hd Hsteps i s s' Hs Hs'.
    apply steps_evolved in Hsteps.
    destruct (Forall2_lookup_lr _ _ _ _ _ _ Hsteps Hs Hs') as [_ Hpos].
    apply Hpos, Hd.
Qed.

(** C3 does not hold as stated: when the last sheep is caught in the last
    permitted round the live count reaches 0, yet the loop runs all its
    rounds and ends by exhausting the range, not early. *)
Lemma extinction_in_last_round :
  exists r, main cfg_one at_origin (always north) = Ok r /\
    num_alive_sheep (final r) = 0%Z /\
    exit r = range_exhausted /\
    Z.of_nat (length (rows r)) = max_rounds cfg_one.
Proof.
  eexists. split; [apply sample_main_catch|]. repeat split.
Qed.

(** C3, amended.  For a valid configuration, every run of the loop of
    [main] that completes has entered the loop body at most [max_rounds]
    times.  The k-th completed round carries round number k, which never
    exceeds [max_rounds].  The loop ends early, by the extinction test,
    exactly when fewer than [max_rounds] rounds were completed, and
    exactly when the live count is 0 after a round that is not the last
    permitted one; the final live count is then 0. *)
Theorem completed_run_rounds cfg uniform g r :
  (0 < max_rounds cfg)%Z -> (0 < num_sheep cfg)%Z ->
  main cfg uniform g = Ok r ->
  (Z.of_nat (iterations r) <= max_rounds cfg)%Z /\
  (forall k n a, rows r !! k = Some (n, a) ->
     n = (Z.of_nat k + 1)%Z /\ (n <= max_rounds cfg)%Z) /\
  (exit r = all_eaten <-> (Z.of_nat (length (rows r)) < max_rounds cfg)%Z) /\
  (exit r = all_eaten <->
   exists k n, rows r !! k = Some (n, 0%Z) /\ (n < max_rounds cfg)%Z) /\
  (exit r = all_eaten -> num_alive_sheep (final r) = 0%Z).
Proof.
  intros Hrounds Hsheep Hmain. unfold main in Hmain.
  pose proof (range_length 1 (max_rounds cfg + 1)) as Hlen.
  replace (max_rounds cfg + 1 - 1)%Z with (max_rounds cfg) in Hlen by lia.
  destruct (rounds_loop_length _ _ _ _ _ Hmain) as [Hle Hearly].
  destruct (rounds_loop_break _ _ _ _ _ Hmain) as [Hfin Hbreak].
  pose proof (rounds_loop_numbers _ _ _ _ _ Hmain) as Hnum.
  rewrite Hlen in Hle, Hearly, Hbreak.
  assert (forall k n a, rows r !! k = Some (n, a) ->
            n = (Z.of_nat k + 1)%Z /\ (n <= max_rounds cfg)%Z) as Hrow.
  { intros k n a Hk.
    assert ((rows r).*1 !! k = Some n) as Hfst.
    { rewrite list_lookup_fmap, Hk. reflexivity. }
    rewrite Hnum in Hfst. apply lookup_take_Some in Hfst as [Hfst _].
    apply range_lookup in Hfst. lia. }
  split; [|split; [exact Hrow|split; [|split; [|exact Hfin]]]].
  - unfold iterations. destruct (exit r).
    + assert (length (rows r) < Z.to_nat (max_rounds cfg))%nat
        by (apply Hearly; reflexivity). lia.
    + lia.
  - rewrite Hearly. lia.
  - rewrite Hbreak. simpl. split.
    + intros [[Hz _]|(k & n & Hk & Hlt)]; [lia|].
      exists k, n. split; [exact Hk|].
      destruct (Hrow _ _ _ Hk). lia.
    + intros (k & n & Hk & Hlt). right. exists k, n. split; [exact Hk|].
      destruct (Hrow _ _ _ Hk). lia.
Qed.

Lemma completed_run_rounds_witness :
  (0 < max_rounds cfg_one)%Z /\ (0 < num_sheep cfg_one)%Z /\
  main cfg_one at_origin (always north) =
    Ok {| rows := [(1%Z, 0%Z)];
          final := after_catch (initial_state cfg_one at_origin)
                     [stood_north 0 0] 0 (stood_north 0 0);
          exit := range_exhausted |} /\
  (Z.of_nat
     (iterations
        {| rows := [(1%Z, 0%Z)];
           final := after_catch (initial_state cfg_one at_origin)
                      [stood_north 0 0] 0 (stood_north 0 0);
           exit := range_exhausted |}) <= max_rounds cfg_one)%Z.
Proof.
  assert (0 < max_rounds cfg_one)%Z as Hr by (simpl; lia).
  assert (0 < num_sheep cfg_one)%Z as Hs by (simpl; lia).
  split; [exact Hr|]. split; [exact Hs|]. split; [apply sample_main_catch|].
  apply (completed_run_rounds cfg_one at_origin (always north) _ Hr Hs
           sample_main_catch).
Defined.




(** C2.  The selector overlooks a live sheep whose distance overflows: for
    a wolf at the origin and a single live sheep at
    [(3 * 2^510, 3 * 2^510)] the squares are finite, their sum is
    infinite, so the distance is [inf]; [inf < inf] is false and the
    selector returns none although a sheep is alive. *)
Theorem closest_sheep_overlooks_far_sheep :
  F64.Sheep.is_alive F64.far_sheep = true /\
  F64.euclidean_distance 0 0 (F64.Sheep.x F64.far_sheep) (F64.Sheep.y F64.far_sheep)
    = F64.Ok infinity /\
  PrimFloat.ltb infinity infinity = false /\
  F64.closest_sheep {| F64.Wolf.x := 0; F64.Wolf.y := 0 |} [F64.far_sheep]
    = F64.Ok None.
Proof. repeat split; vm_compute; reflexivity. Qed.

(** C5.  [main] dereferences a none selection on a configuration that
    passes all its tests: with one sheep, a position limit of [2^512] and
    the default steps, a sheep drawn at [(3 * 2^510, 3 * 2^510)] is not
    moved by its step of 0.5 in any direction, its distance is [inf], the
    selector returns none in round 1 and reading [closest.x] raises
    [AttributeError], whatever the C library computes. *)
Theorem main_dereferences_none (m : F64.Libm) (g : RNG) :
  F64.rejected F64.cfg_far = false /\
  F64.sheep_list (F64.initial_state F64.cfg_far F64.random_far) = [F64.far_sheep] /\
  F64.closest_sheep
    (F64.wolf (F64.initial_state F64.cfg_far F64.random_far))
    (F64.move_all_sheep (F64.move_dist_sheep F64.cfg_far)
       (F64.sheep_list (F64.initial_state F64.cfg_far F64.random_far)) g).1
    = F64.Ok None /\
  F64.main m F64.cfg_far F64.random_far g = F64.Raise F64.AttributeError.
Proof.
  split; [vm_compute; reflexivity|]. split; [vm_compute; reflexivity|].
  assert (F64.move_all_sheep (F64.move_dist_sheep F64.cfg_far)
            (F64.sheep_list (F64.initial_state F64.cfg_far F64.random_far)) g
          = ([F64.far_sheep], fun n => g (S n))) as Hmoves.
  { change (F64.sheep_list (F64.initial_state F64.cfg_far F64.random_far))
      with [F64.Sheep.init
              (F64.uniform (- 0x1p+512) 0x1p+512 0.875)
              (F64.uniform (- 0x1p+512) 0x1p+512 0.875)].
    cbn [F64.move_all_sheep F64.Sheep.is_alive F64.Sheep.init].
    unfold F64.Sheep.move_randomly, random_choice.
    destruct (g 0%nat); vm_compute; reflexivity. }
  split; [rewrite Hmoves; vm_compute; reflexivity|].
  unfold F64.main.
  change (range 1 (F64.max_rounds F64.cfg_far + 1)) with (1%Z :: range 2 51).
  cbn [F64.rounds_loop].
  change (F64.num_alive_sheep (F64.initial_state F64.cfg_far F64.random_far) =? 0)%Z
    with false. cbv iota.
  unfold F64.round_body. rewrite Hmoves.
  change (F64.closest_sheep
            (F64.wolf (F64.initial_state F64.cfg_far F64.random_far))
            [F64.far_sheep])
    with (F64.closest_sheep {| F64.Wolf.x := 0; F64.Wolf.y := 0 |} [F64.far_sheep]).
  replace (F64.closest_sheep {| F64.Wolf.x := 0; F64.Wolf.y := 0 |} [F64.far_sheep])
    with (@F64.Ok (option (nat * F64.Sheep.t)) None) by (vm_compute; reflexivity).
  reflexivity.
Qed.

(** * Further properties of the code *)

(** ** What a round does to each sheep and to the wolf *)

Lemma kill_dead s : Sheep.is_alive s = false -> Sheep.kill s = s.
Proof. destruct s as [sx sy a]. simpl. intros ->. reflexivity. Qed.

Lemma round_body_frozen cfg st g st' out g' :
  round_body cfg st g = Ok (st', out, g') ->
  Forall2 (fun s s' => Sheep.is_alive s = false -> s' = s)
    (sheep_list st) (sheep_list st').
Proof.
  intros Hround.
  destruct (round_body_Ok _ _ _ _ _ _ Hround) as (i & c & _ & Hcase).
  assert (Forall2 (fun s s' => Sheep.is_alive s = false -> s' = s)
            (sheep_list st) (sheep_after_moves cfg st g)) as Hmoves.
  { eapply Forall2_impl; [apply sheep_after_moves_moved|].
    intros s s' (_ & Hdead & _). exact Hdead. }
  destruct Hcase as [(_ & _ & ->)|(_ & _ & ->)]; simpl; [|exact Hmoves].
  apply Forall2_alter_r; [exact Hmoves|].
  intros s s' _ _ Hsame Hdead. rewrite (Hsame Hdead). apply kill_dead, Hdead.
Qed.

Lemma steps_rel cfg st st' :
  rtc (step cfg) st st' ->
  Forall2 (fun s s' => Sheep.is_alive s = false -> s' = s)
    (sheep_list st) (sheep_list st').
Proof.
  induction 1 as [st|st st1 st2 (_ & g & out & g' & Hround) _ IH].
  - apply Forall_Forall2_diag, Forall_forall. auto.
  - eapply Forall2_trans; [|eapply round_body_frozen, Hround|exact IH].
    intros s s1 s2 Hdead Hdead' Hs.
    rewrite <- (Hdead Hs). apply Hdead'. rewrite (Hdead Hs). exact Hs.
Qed.

(** X5.  A dead sheep is never touched again: over any number of rounds
    it keeps its position and stays at its place in the list. *)
Theorem dead_sheep_frozen cfg st st' :
  rtc (step cfg) st st' ->
  forall i s, sheep_list st !! i = Some s -> Sheep.is_alive s = false ->
    sheep_list st' !! i = Some s.
Proof.
  intros Hsteps i s Hs Hdead. apply steps_rel in Hsteps.
  destruct (Forall2_lookup_l _ _ _ _ _ Hsteps Hs) as (s' & Hs' & Hfrozen).
  rewrite Hs', (Hfrozen Hdead). reflexivity.
Qed.

Lemma carcass_round :
  round_body cfg_one st_carcass (always north) =
  Ok (after_catch st_carcass
        [Sheep.kill (Sheep.init 9 9); stood_north 0 0] 1 (stood_north 0 0),
      caught 1, always north).
Proof.
  rewrite round_body_unfold.
  change (sheep_after_moves cfg_one st_carcass (always north))
    with [Sheep.kill (Sheep.init 9 9); stood_north 0 0].
  change (closest_sheep (wolf st_carcass)
            [Sheep.kill (Sheep.init 9 9); stood_north 0 0])
    with (Some (1%nat, stood_north 0 0)).
  cbv beta iota.
  change (wolf st_carcass) with {| Wolf.x := 0; Wolf.y := 0 |}.
  rewrite distance_at_origin.
  replace (Rleb 0 (move_dist_wolf cfg_one)) with true
    by (symmetry; apply Rleb_true; simpl; lra).
  reflexivity.
Qed.

Lemma dead_sheep_frozen_witness :
  rtc (step cfg_one) st_carcass
    (after_catch st_carcass
       [Sheep.kill (Sheep.init 9 9); stood_north 0 0] 1 (stood_north 0 0)) /\
  sheep_list (after_catch st_carcass
                [Sheep.kill (Sheep.init 9 9); stood_north 0 0] 1 (stood_north 0 0))
    !! 0%nat = Some (Sheep.kill (Sheep.init 9 9)).
Proof.
  assert (rtc (step cfg_one) st_carcass
            (after_catch st_carcass
               [Sheep.kill (Sheep.init 9 9); stood_north 0 0] 1 (stood_north 0 0)))
    as Hsteps.
  { apply rtc_once. split; [discriminate|].
    exists (always north), (caught 1), (always north). apply carcass_round. }
  split; [exact Hsteps|].
  apply (dead_sheep_frozen cfg_one _ _ Hsteps 0%nat); reflexivity.
Defined.

Lemma initial_state_length cfg uniform :
  length (sheep_list (initial_state cfg uniform)) = Z.to_nat (num_sheep cfg).
Proof. unfold initial_state. cbn [sheep_list]. rewrite length_map, length_seq. reflexivity. Qed.

(** ** The live counts of a run *)

Lemma rounds_loop_counts cfg rounds st g r :
  rounds_loop cfg rounds st g = Ok r ->
  (forall k a b,
     (num_alive_sheep st :: (rows r).*2) !! k = Some a ->
     (num_alive_sheep st :: (rows r).*2) !! S k = Some b ->
     b = a \/ b = (a - 1)%Z) /\
  last (num_alive_sheep st :: (rows r).*2) = Some (num_alive_sheep (final r)) /\
  (num_alive_sheep st - Z.of_nat (length (rows r)) <= num_alive_sheep (final r)
   <= num_alive_sheep st)%Z.
Proof.
  revert rounds st g r. apply rounds_loop_run_ind.
  - intros st. cbn [rows final fmap list_fmap]. split; [|split; [reflexivity|simpl; lia]].
    intros [|k] a b _ Hb; discriminate.
  - intros n rest st _. cbn [rows final fmap list_fmap].
    split; [|split; [reflexivity|simpl; lia]].
    intros [|k] a b _ Hb; discriminate.
  - intros n rest st g st' out g' r _ Hbody _ (IHstep & IHlast & IHbound).
    cbn [rows final]. rewrite fmap_cons. cbn [snd].
    destruct (round_body_count _ _ _ _ _ _ Hbody) as [Hcount _].
    split; [|split].
    + intros [|k] a b Ha Hb.
      * injection Ha as <-. injection Hb as <-. destruct out; lia.
      * apply (IHstep k a b); assumption.
    + rewrite last_cons_cons. exact IHlast.
    + rewrite length_cons. destruct out; lia.
Qed.

(** X8.  The live counts written round after round start from the number
    of sheep and go down by at most one per round; the last one is the
    live count at the end of the run, which is therefore at least the
    number of sheep minus the number of completed rounds. *)
Theorem live_counts_step_down cfg uniform g r :
  main cfg uniform g = Ok r ->
  (forall k a b,
     (num_sheep cfg :: (rows r).*2) !! k = Some a ->
     (num_sheep cfg :: (rows r).*2) !! S k = Some b ->
     b = a \/ b = (a - 1)%Z) /\
  last (num_sheep cfg :: (rows r).*2) = Some (num_alive_sheep (final r)) /\
  (num_sheep cfg - Z.of_nat (length (rows r)) <= num_alive_sheep (final r)
   <= num_sheep cfg)%Z.
Proof. apply rounds_loop_counts. Qed.

Lemma live_counts_step_down_witness :
  main cfg_one at_origin (always north) =
    Ok {| rows := [(1%Z, 0%Z)];
          final := after_catch (initial_state cfg_one at_origin)
                     [stood_north 0 0] 0 (stood_north 0 0);
          exit := range_exhausted |} /\
  last (num_sheep cfg_one :: [(1%Z, 0%Z)].*2) = Some 0%Z.
Proof.
  split; [apply sample_main_catch|].
  apply (live_counts_step_down cfg_one at_origin (always north) _
           sample_main_catch).
Defined.

(** X9.  With fewer rounds than sheep the wolf cannot eat them all: a
    run that completes has executed every permitted round, ended by
    exhausting the rounds and left at least [num_sheep - max_rounds] sheep
    alive. *)
Theorem too_few_rounds cfg uniform g r :
  (0 < max_rounds cfg)%Z -> (max_rounds cfg < num_sheep cfg)%Z ->
  main cfg uniform g = Ok r ->
  exit r = range_exhausted /\
  Z.of_nat (length (rows r)) = max_rounds cfg /\
  (0 < num_sheep cfg - max_rounds cfg <= num_alive_sheep (final r))%Z.
Proof.
  intros Hrounds Hfew Hmain. unfold main in Hmain.
  pose proof (range_length 1 (max_rounds cfg + 1)) as Hlen.
  replace (max_rounds cfg + 1 - 1)%Z with (max_rounds cfg) in Hlen by lia.
  destruct (rounds_loop_length _ _ _ _ _ Hmain) as [Hle Hearly].
  destruct (rounds_loop_break _ _ _ _ _ Hmain) as [Hfin _].
  destruct (rounds_loop_counts _ _ _ _ _ Hmain) as (_ & _ & Hbound).
  rewrite Hlen in Hle, Hearly. simpl in Hbound.
  assert (exit r = range_exhausted) as Hexit.
  { destruct (exit r); [|reflexivity]. specialize (Hfin eq_refl). lia. }
  split; [exact Hexit|].
  assert (~ (length (rows r) < Z.to_nat (max_rounds cfg))%nat) as Hfull.
  { intros Hlt. apply Hearly in Hlt. congruence. }
  split; lia.
Qed.

Lemma two_sheep_distance :
  (1 < distance_to {| Wolf.x := 0; Wolf.y := 0 |} (half_north 5 0))%R.
Proof.
  unfold distance_to, euclidean_distance, half_north.
  cbn [Wolf.x Wolf.y Sheep.x Sheep.y].
  rewrite <- sqrt_1 at 1. apply sqrt_lt_1_alt. nra.
Qed.

Lemma two_sheep_round :
  round_body cfg_two (initial_state cfg_two five_east) (always north) =
  Ok (after_chase cfg_two (initial_state cfg_two five_east)
        [half_north 5 0; half_north 5 0] (half_north 5 0),
      chasing 0, always north).
Proof.
  pose proof two_sheep_distance as Hfar.
  rewrite round_body_unfold.
  change (sheep_after_moves cfg_two (initial_state cfg_two five_east) (always north))
    with [half_north 5 0; half_north 5 0].
  change (wolf (initial_state cfg_two five_east))
    with {| Wolf.x := 0; Wolf.y := 0 |}.
  assert (closest_sheep {| Wolf.x := 0; Wolf.y := 0 |}
            [half_north 5 0; half_north 5 0] = Some (0%nat, half_north 5 0))
    as ->.
  { unfold closest_sheep. cbn [closest_scan lt_min].
    change (Sheep.is_alive (half_north 5 0)) with true. cbn [andb].
    fold (distance_to {| Wolf.x := 0; Wolf.y := 0 |} (half_north 5 0)).
    replace (Rltb (distance_to {| Wolf.x := 0; Wolf.y := 0 |} (half_north 5 0))
               (distance_to {| Wolf.x := 0; Wolf.y := 0 |} (half_north 5 0)))
      with false by (symmetry; apply Rltb_false; lra).
    reflexivity. }
  replace (Rleb (distance_to {| Wolf.x := 0; Wolf.y := 0 |} (half_north 5 0))
             (move_dist_wolf cfg_two))
    with false by (symmetry; apply Rleb_false; simpl; lra).
  reflexivity.
Qed.

Lemma two_sheep_main :
  main cfg_two five_east (always north) =
  Ok {| rows := [(1%Z, 2%Z)];
        final := after_chase cfg_two (initial_state cfg_two five_east)
                   [half_north 5 0; half_north 5 0] (half_north 5 0);
        exit := range_exhausted |}.
Proof.
  unfold main. change (range 1 (max_rounds cfg_two + 1)) with [1%Z].
  rewrite rounds_loop_cons.
  change (num_alive_sheep (initial_state cfg_two five_east) =? 0)%Z with false.
  cbv iota. rewrite two_sheep_round. reflexivity.
Qed.

Lemma too_few_rounds_witness :
  (0 < max_rounds cfg_two)%Z /\ (max_rounds cfg_two < num_sheep cfg_two)%Z /\
  main cfg_two five_east (always north) =
    Ok {| rows := [(1%Z, 2%Z)];
          final := after_chase cfg_two (initial_state cfg_two five_east)
                     [half_north 5 0; half_north 5 0] (half_north 5 0);
          exit := range_exhausted |} /\
  (0 < num_sheep cfg_two - max_rounds cfg_two <= 2)%Z.
Proof.
  assert (0 < max_rounds cfg_two)%Z as Hr by (simpl; lia).
  assert (max_rounds cfg_two < num_sheep cfg_two)%Z as Hf by (simpl; lia).
  split; [exact Hr|]. split; [exact Hf|]. split; [apply two_sheep_main|].
  apply (too_few_rounds cfg_two five_east (always north) _ Hr Hf two_sheep_main).
Defined.

(** ** Dead sheep and the selector *)



(** X17.  What the selector returns is sound for the distances it
    computed: when it returns a sheep, that sheep is in the list at the
    returned index and alive, no live sheep of the list has a strictly
    smaller distance to the wolf, and among the live sheep at the same
    distance it is the one of lowest index. *)
Theorem closest_sheep_selected w l i c :
  closest_sheep w l = Some (i, c) ->
  l !! i = Some c /\ Sheep.is_alive c = true /\
  forall j s, l !! j = Some s -> Sheep.is_alive s = true ->
    ~ (distance_to w s < distance_to w c)%R /\
    (distance_to w s = distance_to w c -> (i <= j)%nat).
Proof.
  intros Hsel.
  destruct (closest_sheep_Some _ _ _ _ Hsel) as (Hi & Hc & Hmin).
  split; [exact Hi|]. split; [exact Hc|].
  intros j s Hj Hs. destruct (Hmin j s Hj Hs) as [Hle Htie].
  split; [lra|exact Htie].
Qed.

Lemma closest_sheep_selected_witness :
  closest_sheep {| Wolf.x := 0; Wolf.y := 0 |}
    [Sheep.kill (Sheep.init 9 9); stood_north 0 0]
    = Some (1%nat, stood_north 0 0) /\
  [Sheep.kill (Sheep.init 9 9); stood_north 0 0] !! 1%nat = Some (stood_north 0 0).
Proof.
  assert (closest_sheep {| Wolf.x := 0; Wolf.y := 0 |}
            [Sheep.kill (Sheep.init 9 9); stood_north 0 0]
          = Some (1%nat, stood_north 0 0)) as Hsel by reflexivity.
  split; [exact Hsel|]. apply (closest_sheep_selected _ _ _ _ Hsel).
Defined.

(** ** Reading the configuration *)

Lemma configure_checked args files cfg :
  configure args files = Some cfg ->
  (0 <= init_pos_limit cfg)%R /\ (0 <= move_dist_sheep cfg)%R /\
  (0 < move_dist_wolf cfg)%R /\ (0 < max_rounds cfg)%Z /\ (0 < num_sheep cfg)%Z.
Proof.
  unfold configure. intros H.
  repeat match goal with
         | H : context [match ?x with _ => _ end] |- _ =>
             destruct x eqn:?; try discriminate
         end.
  all: repeat match goal with
         | H : Rltb _ _ = false |- _ => apply Rltb_false in H
         | H : Rleb _ _ = false |- _ => apply Rleb_false in H
         | H : (_ <=? _)%Z = false |- _ => apply Z.leb_gt in H
         | H : Some _ = Some _ |- _ => injection H as ?; subst
         | H : (_, _) = (_, _) |- _ => injection H as ?; subst
         end.
  all: cbn [init_pos_limit move_dist_sheep move_dist_wolf max_rounds num_sheep].
  all: repeat split; try lra; try lia.
Qed.

(** X11.  When the configuration step lets the program go on, the
    numbers of rounds and of sheep it hands to the simulation are
    positive, and none of the three tests of the code holds of the
    distances: the position limit is not below 0, the sheep's step is not
    below 0, and the wolf's step is not below or equal to 0. *)
Theorem configure_valid args files cfg :
  configure args files = Some cfg ->
  (0 < max_rounds cfg)%Z /\ (0 < num_sheep cfg)%Z /\
  ~ (init_pos_limit cfg < 0)%R /\ ~ (move_dist_sheep cfg < 0)%R /\
  ~ (move_dist_wolf cfg <= 0)%R.
Proof.
  intros Hcfg.
  destruct (configure_checked _ _ _ Hcfg) as (H1 & H2 & H3 & H4 & H5).
  repeat split; try assumption; lra.
Qed.

Lemma configure_valid_witness :
  configure no_args no_config_files =
    Some {| init_pos_limit := 10; move_dist_sheep := 1 / 2; move_dist_wolf := 1;
            max_rounds := 50; num_sheep := 15 |} /\
  (0 < max_rounds {| init_pos_limit := 10; move_dist_sheep := 1 / 2;
                     move_dist_wolf := 1; max_rounds := 50; num_sheep := 15 |})%Z.
Proof.
  assert (configure no_args no_config_files =
          Some {| init_pos_limit := 10; move_dist_sheep := 1 / 2;
                  move_dist_wolf := 1; max_rounds := 50; num_sheep := 15 |})
    as Hcfg by reflexivity.
  split; [exact Hcfg|]. apply (configure_valid _ _ _ Hcfg).
Defined.

Lemma configure_stages args files :
  configure args files =
  if Args.help args then None else
  match read_dists args files with
  | None => None
  | Some (init_pos_limit, move_dist_sheep, move_dist_wolf) =>
      match count_arg (Args.rounds args) 50 with
      | None => None
      | Some max_rounds =>
          match count_arg (Args.sheep args) 15 with
          | None => None
          | Some num_sheep =>
              Some {| init_pos_limit := init_pos_limit;
                      move_dist_sheep := move_dist_sheep;
                      move_dist_wolf := move_dist_wolf;
                      max_rounds := max_rounds;
                      num_sheep := num_sheep |}
          end
      end
  end.
Proof. reflexivity. Qed.

Lemma count_arg_None arg default :
  count_arg arg default = None <-> exists n, arg = Some n /\ (n < 0)%Z.
Proof.
  unfold count_arg. split.
  - destruct arg as [[|n|n]|]; try discriminate.
    intros _. exists (Z.neg n). split; [reflexivity|lia].
  - intros (n & -> & Hn). destruct n; [lia|lia|reflexivity].
Qed.

Lemma read_dists_None args files :
  read_dists args files = None <->
  exists path, Args.config args = Some path /\ path <> EmptyString /\
    (files path = None \/
     exists a b c, files path = Some (a, b, c) /\ (a < 0 \/ b < 0 \/ c <= 0)%R).
Proof.
  unfold read_dists. split.
  - destruct (Args.config args) as [[|ch path]|]; try discriminate.
    intros H. exists (String ch path). split; [reflexivity|]. split; [discriminate|].
    destruct (files (String ch path)) as [[[a b] c]|]; [|auto].
    right. exists a, b, c. split; [reflexivity|].
    destruct (Rltb a 0) eqn:Ha; [apply Rltb_true in Ha; auto|].
    destruct (Rltb b 0) eqn:Hb; [apply Rltb_true in Hb; auto|].
    destruct (Rleb c 0) eqn:Hc; [apply Rleb_true in Hc; auto|discriminate].
  - intros (path & -> & Hne & Hbad).
    destruct path as [|ch path]; [congruence|].
    destruct Hbad as [->|(a & b & c & -> & Hbad)]; [reflexivity|].
    destruct (Rltb a 0) eqn:Ha; [reflexivity|apply Rltb_false in Ha].
    destruct (Rltb b 0) eqn:Hb; [reflexivity|apply Rltb_false in Hb].
    destruct (Rleb c 0) eqn:Hc; [reflexivity|apply Rleb_false in Hc]. lra.
Qed.

(** X12.  The program stops before the simulation in exactly these cases:
    help was asked for; a configuration file is named (by a non-empty
    string) that does not exist or holds a negative position limit, a
    negative sheep step or a wolf step that is not positive; or the number
    of rounds or of sheep given on the command line is negative.  A
    number of rounds or of sheep of 0 does not stop it: the default is
    used. *)
Theorem configure_exits args files :
  configure args files = None <->
  Args.help args = true \/
  (exists path, Args.config args = Some path /\ path <> EmptyString /\
     (files path = None \/
      exists a b c, files path = Some (a, b, c) /\ (a < 0 \/ b < 0 \/ c <= 0)%R)) \/
  (exists n, Args.rounds args = Some n /\ (n < 0)%Z) \/
  (exists n, Args.sheep args = Some n /\ (n < 0)%Z).
Proof.
  rewrite configure_stages, <- read_dists_None.
  rewrite <- (count_arg_None (Args.rounds args) 50).
  rewrite <- (count_arg_None (Args.sheep args) 15).
  destruct (Args.help args); [split; auto|].
  destruct (read_dists args files) as [[[a b] c]|]; [|split; auto].
  destruct (count_arg (Args.rounds args) 50); [|split; auto].
  destruct (count_arg (Args.sheep args) 15); [|split; auto].
  split; [discriminate|]. intros [H|[H|[H|H]]]; discriminate.
Qed.

(** ** Rounding *)

Lemma round_half_even_close v :
  (Rabs (IZR (round_half_even v) - v) <= 1 / 2)%R.
Proof.
  unfold round_half_even. pose proof (Zfloor_bound v) as [Hlo Hhi].
  apply Rabs_le.
  destruct (Rlt_dec (v - IZR (Zfloor v)) (1 / 2)); [lra|].
  destruct (Rlt_dec (1 / 2) (v - IZR (Zfloor v))); [rewrite plus_IZR; lra|].
  destruct (Z.even (Zfloor v)); [lra|rewrite plus_IZR; lra].
Qed.

Lemma round_half_even_IZR z : round_half_even (IZR z) = z.
Proof.
  unfold round_half_even. rewrite ZfloorZ.
  destruct (Rlt_dec (IZR z - IZR z) (1 / 2)); [reflexivity|lra].
Qed.

(** Rounding to three decimals moves a number by at most 0.0005 and
    changes nothing when applied again. *)
Lemma round3_close v :
  (Rabs (round3 v - v) <= 5 / 10000)%R /\ round3 (round3 v) = round3 v.
Proof.
  unfold round3. split.
  - pose proof (round_half_even_close (v * 1000)) as Hclose.
    unfold Rabs in *. destruct (Rcase_abs _) in Hclose; destruct (Rcase_abs _); lra.
  - replace (IZR (round_half_even (v * 1000)) / 1000 * 1000)%R
      with (IZR (round_half_even (v * 1000))) by (field; lra).
    rewrite round_half_even_IZR. reflexivity.
Qed.

(** X13.  [save_to_json] keeps what the file held (nothing, when the file
    is missing), leaves alive.csv alone and appends one entry for the
    round.  The entry has one position per sheep, in order: null for a
    dead sheep, and for a live sheep and for the wolf coordinates that
    differ from the true ones by at most 0.0005. *)
Theorem save_to_json_entry n w l fs :
  exists snap,
    pos_json (save_to_json n w l fs) = Some (default [] (pos_json fs) ++ [snap]) /\
    alive_csv (save_to_json n w l fs) = alive_csv fs /\
    round_no snap = n /\
    (Rabs ((wolf_pos snap).1 - Wolf.x w) <= 5 / 10000)%R /\
    (Rabs ((wolf_pos snap).2 - Wolf.y w) <= 5 / 10000)%R /\
    length (sheep_pos snap) = length l /\
    forall i s, l !! i = Some s ->
      if Sheep.is_alive s then
        exists px py, sheep_pos snap !! i = Some (Some (px, py)) /\
          (Rabs (px - Sheep.x s) <= 5 / 10000)%R /\
          (Rabs (py - Sheep.y s) <= 5 / 10000)%R
      else sheep_pos snap !! i = Some None.
Proof.
  exists (snapshot n w l). unfold save_to_json, snapshot.
  cbn [pos_json alive_csv round_no wolf_pos sheep_pos fst snd].
  split; [destruct (pos_json fs); reflexivity|]. split; [reflexivity|].
  split; [reflexivity|]. split; [apply round3_close|].
  split; [apply round3_close|]. split; [apply length_map|].
  intros i s Hs. change (map ?f l) with (f <$> l).
  rewrite list_lookup_fmap, Hs. cbn [fmap option_fmap option_map].
  destruct (Sheep.is_alive s); [|reflexivity].
  eexists _, _. split; [reflexivity|]. split; apply round3_close.
Qed.

(** ** The output files *)

Lemma rounds_loop_io_cons cfg n rest st g fs :
  rounds_loop_io cfg (n :: rest) st g fs =
  if (num_alive_sheep st =? 0)%Z then
    (Ok {| rows := []; final := st; exit := all_eaten |}, fs)
  else
    match round_body cfg st g with
    | Raise e => (Raise e, fs)
    | Ok (st', _, g') =>
        match rounds_loop_io cfg rest st' g'
                (save_to_csv n (num_alive_sheep st')
                   (save_to_json n (wolf st') (sheep_list st') fs)) with
        | (Raise e, fs') => (Raise e, fs')
        | (Ok r, fs') =>
            (Ok {| rows := (n, num_alive_sheep st') :: rows r;
                   final := final r; exit := exit r |}, fs')
        end
    end.
Proof. reflexivity. Qed.

Lemma save_round n st fs :
  save_to_csv n (num_alive_sheep st)
    (save_to_json n (wolf st) (sheep_list st) fs)
  = {| alive_csv :=
         Some (default [] (alive_csv fs) ++ [csv_row (n, num_alive_sheep st)]);
       pos_json :=
         Some (default [] (pos_json fs)
               ++ [snapshot n (wolf st) (sheep_list st)]) |}.
Proof.
  unfold save_to_csv, save_to_json. cbn [alive_csv pos_json].
  destruct (alive_csv fs), (pos_json fs); reflexivity.
Qed.

Lemma appended_snoc {A} (old : option (list A)) x new :
  appended (Some (default [] old ++ [x])) new = appended old (x :: new).
Proof.
  destruct new as [|y new]; [reflexivity|].
  unfold appended. destruct old; simpl; rewrite <- ?app_assoc; reflexivity.
Qed.

Lemma live_entries_snapshot n w l :
  live_entries (snapshot n w l) = count_alive l.
Proof.
  unfold live_entries, snapshot. cbn [sheep_pos].
  induction l as [|s rest IH]; [reflexivity|].
  rewrite count_alive_cons, <- IH. cbn [map omap list_omap].
  destruct (Sheep.is_alive s); cbn [length]; lia.
Qed.

(** What the loop leaves in the files, for a run that completes from a
    consistent state. *)
Lemma rounds_loop_io_run cfg rounds : forall st g fs r,
  consistent st -> rounds_loop cfg rounds st g = Ok r ->
  exists snaps,
    rounds_loop_io cfg rounds st g fs =
      (Ok r, {| alive_csv := appended (alive_csv fs) (csv_row <$> rows r);
                pos_json := appended (pos_json fs) snaps |}) /\
    Forall2 (fun row snap =>
               round_no snap = row.1 /\ live_entries snap = row.2 /\
               length (sheep_pos snap) = length (sheep_list st))
            (rows r) snaps /\
    (rows r <> [] ->
     exists n, last snaps = Some (snapshot n (wolf (final r)) (sheep_list (final r)))).
Proof.
  induction rounds as [|n rest IH]; intros st g fs r Hc.
  - intros [= <-]. exists []. cbn [rounds_loop_io rows fmap list_fmap appended].
    destruct fs. split; [reflexivity|]. split; [constructor|]. congruence.
  - rewrite rounds_loop_cons, rounds_loop_io_cons.
    destruct (Z.eqb_spec (num_alive_sheep st) 0) as [Hz|Hnz].
    + intros [= <-]. exists []. cbn [rows fmap list_fmap appended].
      destruct fs. split; [reflexivity|]. split; [constructor|]. congruence.
    + destruct (round_body cfg st g) as [[[st' out] g']|] eqn:Hbody; [|discriminate].
      destruct (rounds_loop cfg rest st' g') as [r'|] eqn:Hrest; [|discriminate].
      intros [= <-].
      pose proof (round_body_consistent _ _ _ _ _ _ Hc Hbody) as Hc'.
      destruct (IH st' g'
                  (save_to_csv n (num_alive_sheep st')
                     (save_to_json n (wolf st') (sheep_list st') fs))
                  r' Hc' Hrest) as (snaps & -> & Hall & Hlast).
      exists (snapshot n (wolf st') (sheep_list st') :: snaps).
      rewrite save_round. cbn [alive_csv pos_json rows final].
      rewrite !appended_snoc, fmap_cons.
      pose proof (Forall2_length _ _ _ (round_body_evolved _ _ _ _ _ _ Hbody))
        as Hlen.
      split; [reflexivity|]. split.
      * constructor.
        -- cbn [fst snd]. split; [reflexivity|].
           rewrite live_entries_snapshot. split; [symmetry; exact Hc'|].
           unfold snapshot. cbn [sheep_pos]. rewrite length_map. congruence.
        -- eapply Forall2_impl; [exact Hall|].
           intros row snap (H1 & H2 & H3). repeat split; congruence.
      * intros _. destruct (rows r') as [|row rows'] eqn:Hrows.
        -- apply Forall2_nil_inv_l in Hall as ->. exists n. cbn [last].
           assert (final r' = st') as ->; [|reflexivity].
           revert Hrest Hrows. clear.
           destruct rest as [|m rest]; [intros [= <-]; reflexivity|].
           rewrite rounds_loop_cons.
           destruct (num_alive_sheep st' =? 0)%Z; [intros [= <-]; reflexivity|].
           destruct (round_body cfg st' g') as [[[st2 out2] g2]|]; [|discriminate].
           destruct (rounds_loop cfg rest st2 g2); [|discriminate].
           intros [= <-]. discriminate.
        -- destruct Hlast as [m Hm]; [discriminate|]. exists m.
           destruct snaps as [|snap snaps]; [inversion Hall|].
           rewrite last_cons_cons. exact Hm.
Qed.

Lemma rounds_loop_io_fst cfg rounds : forall st g fs,
  (rounds_loop_io cfg rounds st g fs).1 = rounds_loop cfg rounds st g.
Proof.
  induction rounds as [|n rest IH]; intros st g fs; [reflexivity|].
  rewrite rounds_loop_cons, rounds_loop_io_cons.
  destruct (num_alive_sheep st =? 0)%Z; [reflexivity|].
  destruct (round_body cfg st g) as [[[st' out] g']|]; [|reflexivity].
  rewrite <- (IH st' g' (save_to_csv n (num_alive_sheep st')
                           (save_to_json n (wolf st') (sheep_list st') fs))).
  destruct (rounds_loop_io cfg rest st' g' _) as [[r|e] fs']; reflexivity.
Qed.

Lemma rounds_loop_first_row cfg n rest st g r :
  num_alive_sheep st <> 0%Z ->
  rounds_loop cfg (n :: rest) st g = Ok r -> rows r <> [].
Proof.
  intros Hnz. rewrite rounds_loop_cons.
  destruct (Z.eqb_spec (num_alive_sheep st) 0) as [Hz|_]; [contradiction|].
  destruct (round_body cfg st g) as [[[st' out] g']|]; [|discriminate].
  destruct (rounds_loop cfg rest st' g'); [|discriminate].
  intros [= <-]. discriminate.
Qed.

Lemma delete_all fs :
  delete_file CHASE_DIR (delete_file POS_DIR (delete_file ALIVE_DIR fs)) = no_files.
Proof. reflexivity. Qed.

(** The program as the configuration step followed by [main]. *)
Lemma main_program_stages args files uniform g fs :
  main_program args files uniform g fs =
  match configure args files with
  | None => (system_exit, no_files)
  | Some cfg =>
      match rounds_loop_io cfg (range 1 (max_rounds cfg + 1))
              (initial_state cfg uniform) g no_files with
      | (Ok r, fs') => (completed r, fs')
      | (Raise e, fs') => (uncaught e, fs')
      end
  end.
Proof. reflexivity. Qed.

Lemma main_program_completed args files uniform g fs r fs' :
  main_program args files uniform g fs = (completed r, fs') ->
  exists cfg snaps,
    configure args files = Some cfg /\
    main cfg uniform g = Ok r /\ rows r <> [] /\
    fs' = {| alive_csv := Some (csv_row <$> rows r); pos_json := Some snaps |} /\
    Forall2 (fun row snap =>
               round_no snap = row.1 /\ live_entries snap = row.2 /\
               Z.of_nat (length (sheep_pos snap)) = num_sheep cfg)
            (rows r) snaps /\
    exists n, last snaps = Some (snapshot n (wolf (final r)) (sheep_list (final r))).
Proof.
  rewrite main_program_stages.
  destruct (configure args files) as [cfg|] eqn:Hcfg; [|discriminate].
  destruct (configure_checked _ _ _ Hcfg) as (_ & _ & _ & Hrounds & Hsheep).
  pose proof (rounds_loop_io_fst cfg (range 1 (max_rounds cfg + 1))
                (initial_state cfg uniform) g no_files) as Hfst.
  destruct (rounds_loop_io cfg _ _ g no_files) as [[r0|e] fs0] eqn:Hio;
    [|discriminate].
  intros [= -> ->]. cbn [fst] in Hfst. symmetry in Hfst.
  assert (consistent (initial_state cfg uniform)) as Hc
    by (apply initial_state_consistent; lia).
  destruct (rounds_loop_io_run cfg _ _ g no_files r Hc Hfst)
    as (snaps & Hrun & Hall & Hlast).
  rewrite Hio in Hrun. injection Hrun as ->.
  assert (rows r <> []) as Hrows.
  { pose proof (range_length 1 (max_rounds cfg + 1)) as Hlen.
    destruct (range 1 (max_rounds cfg + 1)) as [|n rest] eqn:Hrange;
      [simpl in Hlen; lia|].
    eapply rounds_loop_first_row; [|exact Hfst]. simpl. lia. }
  exists cfg, snaps. split; [reflexivity|]. split; [exact Hfst|].
  split; [exact Hrows|].
  assert (snaps <> []) as Hsnaps.
  { intros ->. apply Forall2_nil_inv_r in Hall. contradiction. }
  split; [|split; [|auto]].
  - cbn [alive_csv pos_json no_files]. unfold appended.
    destruct (rows r); [contradiction|]. destruct snaps; [contradiction|].
    reflexivity.
  - eapply Forall2_impl; [exact Hall|].
    intros row snap (H1 & H2 & H3). split; [exact H1|]. split; [exact H2|].
    rewrite H3, initial_state_length. lia.
Qed.

Lemma main_program_ending args files uniform g fs :
  (configure args files = None /\
   main_program args files uniform g fs = (system_exit, no_files)) \/
  (exists cfg r fs', configure args files = Some cfg /\
     main_program args files uniform g fs = (completed r, fs')).
Proof.
  rewrite main_program_stages.
  destruct (configure args files) as [cfg|] eqn:Hcfg; [right|left; auto].
  destruct (configure_checked _ _ _ Hcfg) as (_ & _ & _ & _ & Hsheep).
  destruct (main_total cfg uniform g) as [r Hmain]; [lia|].
  pose proof (rounds_loop_io_fst cfg (range 1 (max_rounds cfg + 1))
                (initial_state cfg uniform) g no_files) as Hfst.
  unfold main in Hmain. rewrite Hmain in Hfst.
  destruct (rounds_loop_io cfg _ _ g no_files) as [res fs'].
  cbn [fst] in Hfst. subst res. eauto.
Qed.

(** X15.  After a completed run alive.csv holds exactly one row per
    completed round, in order, made of the round number and the live
    count after that round in decimal; there is at least one row, and
    nothing that was in the files before the run survives. *)
Theorem alive_csv_after_run args files uniform g fs r fs' :
  main_program args files uniform g fs = (completed r, fs') ->
  rows r <> [] /\
  alive_csv fs' = Some (csv_row <$> rows r) /\
  (forall k n a, rows r !! k = Some (n, a) ->
     n = (Z.of_nat k + 1)%Z /\
     (csv_row <$> rows r) !! k = Some [pretty n; pretty a]) /\
  main_program args files uniform g no_files = (completed r, fs').
Proof.
  intros Hrun.
  destruct (main_program_completed _ _ _ _ _ _ _ Hrun)
    as (cfg & snaps & _ & Hmain & Hrows & -> & _).
  split; [exact Hrows|]. split; [reflexivity|]. split; [|exact Hrun].
  intros k n a Hk. split.
  - pose proof (rounds_loop_numbers _ _ _ _ _ Hmain) as Hnum.
    assert ((rows r).*1 !! k = Some n) as Hfst
      by (rewrite list_lookup_fmap, Hk; reflexivity).
    rewrite Hnum in Hfst. apply lookup_take_Some in Hfst as [Hfst _].
    apply range_lookup in Hfst. lia.
  - rewrite list_lookup_fmap, Hk. reflexivity.
Qed.

Lemma alive_csv_after_run_witness :
  exists r fs',
    main_program no_args no_config_files at_origin (always north) no_files
      = (completed r, fs') /\
    alive_csv fs' = Some (csv_row <$> rows r).
Proof.
  destruct (main_program_ending no_args no_config_files at_origin
              (always north) no_files)
    as [[Hcfg _]|(cfg & r & fs' & _ & Hrun)]; [discriminate|].
  exists r, fs'. split; [exact Hrun|].
  apply (alive_csv_after_run _ _ _ _ _ _ _ Hrun).
Defined.

(** X16.  After a completed run pos.json holds one entry per completed
    round, in the order of the rows of alive.csv: the entry has the round
    number of the row, as many sheep positions as there are sheep, and as
    many positions that are not null as the row's live count.  The last
    entry is the snapshot of the final state, with coordinates rounded to
    three decimals and null for every dead sheep. *)
Theorem pos_json_after_run args files uniform g fs r fs' :
  main_program args files uniform g fs = (completed r, fs') ->
  exists cfg snaps,
    configure args files = Some cfg /\
    pos_json fs' = Some snaps /\
    Forall2 (fun row snap =>
               round_no snap = row.1 /\ live_entries snap = row.2 /\
               Z.of_nat (length (sheep_pos snap)) = num_sheep cfg)
            (rows r) snaps /\
    exists n, last snaps = Some (snapshot n (wolf (final r)) (sheep_list (final r))).
Proof.
  intros Hrun.
  destruct (main_program_completed _ _ _ _ _ _ _ Hrun)
    as (cfg & snaps & Hcfg & _ & _ & -> & Hall & Hlast).
  exists cfg, snaps. auto.
Qed.

Lemma pos_json_after_run_witness :
  exists r fs' snaps,
    main_program no_args no_config_files at_origin (always north) no_files
      = (completed r, fs') /\
    pos_json fs' = Some snaps /\ length snaps = length (rows r).
Proof.
  destruct (main_program_ending no_args no_config_files at_origin
              (always north) no_files)
    as [[Hcfg _]|(cfg & r & fs' & _ & Hrun)]; [discriminate|].
  destruct (pos_json_after_run _ _ _ _ _ _ _ Hrun)
    as (cfg' & snaps & _ & Hjson & Hall & _).
  exists r, fs', snaps. split; [exact Hrun|]. split; [exact Hjson|].
  symmetry. eapply Forall2_length, Hall.
Defined.
